(** * PyramidWFS: the closed-loop pyramid wavefront sensor notebook

    A shallow embedding of the code cells of
    [doc/tutorial_notebooks/PyramidWFS/PyramidWFS.ipynb].

    The notebook is a script over the optics engine (wavefront propagation,
    detector, photon noise, regularised inverse).  The engine is not part of
    the notebook, so it enters the development as a record of operations
    ([Library]); every operation may raise.  The notebook itself is a
    program in a small state-and-exception monad over the notebook's
    variables and the three stateful objects it drives: the deformable
    mirror, the camera and the random generator.

    Numbers are kept behind the interface [Scalar], with two instances:
    IEEE binary64 (what Python and numpy compute with) and the exact
    rationals (what the formulas mean on paper).

    Modelled are the cells that compute: the parameters, the reference
    image, the interaction matrix, the reconstruction matrix, the star and
    the initial mirror shape, and the two closed-loop cells.  Plots, the
    progress message and the Strehl and RMS diagnostics feed nothing back
    into these cells and are left out. *)

From Stdlib Require Import ZArith QArith Qcanon Floats List Lia.
From stdpp Require Import base decidable list.
Import ListNotations.

Set Implicit Arguments.
Unset Strict Implicit.

(** ** Scalars *)

Class Scalar (F : Type) : Type := {
  of_Z : Z -> F;            (* a Python int used where a float is expected *)
  fadd : F -> F -> F;
  fsub : F -> F -> F;
  fmul : F -> F -> F;
  fdiv : F -> F -> F        (* numpy division: no exception on a zero divisor *)
}.

(** A decimal literal [n/d]: both parts are small integers, so one correctly
    rounded division gives the float Python parses the literal to. *)
Definition lit {F} `{Scalar F} (n d : Z) : F := fdiv (of_Z n) (of_Z d).

Module B64.
(** binary64, through the primitive floats. *)
Definition float_of_Z (z : Z) : float :=
  match z with
  | Z0 => PrimFloat.zero
  | Zpos _ => PrimFloat.of_uint63 (Uint63.of_Z z)
  | Zneg p => PrimFloat.opp (PrimFloat.of_uint63 (Uint63.of_Z (Zpos p)))
  end.

#[global] Instance scalar : Scalar float := {|
  of_Z := float_of_Z;
  fadd := PrimFloat.add;
  fsub := PrimFloat.sub;
  fmul := PrimFloat.mul;
  fdiv := PrimFloat.div
|}.
End B64.

Module Exact.
(** Exact rational arithmetic; division by zero yields zero, as in [Qc]. *)
#[global] Instance scalar : Scalar Qc := {|
  of_Z := fun z => Q2Qc (inject_Z z);
  fadd := Qcplus;
  fsub := Qcminus;
  fmul := Qcmult;
  fdiv := Qcdiv
|}.
End Exact.

(** ** Python exceptions *)

Inductive exn : Type :=
| ValueError                  (* numpy: operands could not be broadcast *)
| EngineError (code : nat).   (* anything raised inside the optics engine *)

(** ** numpy on one-dimensional arrays *)

Section Numpy.
Context {F : Type} `{Scalar F}.

(** [np.sum(v)], adding from the left; numpy adds long arrays in blocks,
    which can change the last bits of a float sum and nothing else. *)
Definition np_sum (v : list F) : F := fold_left fadd v (of_Z 0).

(** [v /= np.sum(v)] *)
Definition normalize (v : list F) : list F :=
  let total := np_sum v in map (fun x => fdiv x total) v.

(** [c * v] for a Python number [c] *)
Definition scale (c : F) (v : list F) : list F := map (fmul c) v.

(** [v / c] for a Python number [c] *)
Definition divide_by (v : list F) (c : F) : list F := map (fun x => fdiv x c) v.

(** [u op v]: equal shapes, or one side of length one is stretched. *)
Definition np_broadcast (f : F -> F -> F) (u v : list F) : exn + list F :=
  if decide (length u = length v) then inr (zip_with f u v)
  else match u, v with
       | [x], _ => inr (map (f x) v)
       | _, [y] => inr (map (fun a => f a y) u)
       | _, _ => inl ValueError
       end.

(** [u op= v]: the result must have the shape of [u]. *)
Definition np_inplace (f : F -> F -> F) (u v : list F) : exn + list F :=
  if decide (length u = length v) then inr (zip_with f u v)
  else match v with
       | [y] => inr (map (fun a => f a y) u)
       | _ => inl ValueError
       end.

(** [m.dot(v)] for a two-dimensional [m], given by its rows. *)
Definition np_dot (m : list (list F)) (v : list F) : exn + list F :=
  if forallb (fun row => Nat.eqb (length row) (length v)) m
  then inr (map (fun row => np_sum (zip_with fmul row v)) m)
  else inl ValueError.

(** A name bound first to a Python number and then to an array
    ([slope = 0] followed by [slope += ...]). *)
Inductive ndval : Type :=
| Num (x : F)
| Arr (v : list F).

(** [acc += v] *)
Definition nd_iadd (acc : ndval) (v : list F) : exn + ndval :=
  match acc with
  | Num x => inr (Arr (map (fadd x) v))
  | Arr u => match np_inplace fadd u v with
             | inr w => inr (Arr w)
             | inl e => inl e
             end
  end.
End Numpy.

Arguments ndval F : clear implicits.
Arguments np_sum {F H} v : simpl never.
Arguments normalize {F H} v : simpl never.
Arguments scale {F H} c v : simpl never.
Arguments divide_by {F H} v c : simpl never.
Arguments np_broadcast {F} f u v : simpl never.
Arguments np_inplace {F} f u v : simpl never.
Arguments np_dot {F H} m v : simpl never.
Arguments nd_iadd {F H} acc v : simpl never.

(** ** The optics engine

    [W] is the engine's wavefront, [Cam] the state held inside the camera
    object, [Rng] the state of numpy's global random generator and [IMat]
    the matrix a mode basis hands out.  The operations are those the
    notebook calls; each returns its result or the exception it raised. *)

Record Library (F W Cam Rng IMat : Type) : Type := {
  (* poke_centers.x.size *)
  num_modes : nat;
  (* Wavefront(magallen_aperture, wavelength) *)
  new_wavefront : F -> exn + W;
  (* wf.total_power = p *)
  set_total_power : W -> F -> exn + W;
  (* deformable_mirror.forward(wf): reads the mirror's actuators *)
  dm_forward : list F -> W -> exn + W;
  (* deformable_mirror.random(rms): draws new actuators *)
  dm_random : Rng -> list F -> F -> exn + (list F * Rng);
  (* pwfs.forward(wf) *)
  pwfs_forward : W -> exn + W;
  (* camera.integrate(wf, dt) *)
  integrate : Cam -> W -> F -> exn + Cam;
  (* camera.read_out() *)
  read_out : Cam -> exn + (list F * Cam);
  (* large_poisson(image).astype(float) *)
  large_poisson : Rng -> list F -> exn + (list F * Rng);
  (* ModeBasis(slopes).transformation_matrix *)
  transformation_matrix : list (ndval F) -> exn + IMat;
  (* inverse_tikhonov(matrix, rcond=rcond, svd=None) *)
  inverse_tikhonov : IMat -> F -> exn + list (list F);
  (* Python's float power, x ** y *)
  float_pow : F -> F -> F
}.

(** ** The notebook's state *)

(** The operations that can raise, as they appear in the execution log. *)
Inductive Op (F : Type) : Type :=
| op_new_wavefront
| op_set_total_power (p : F)
| op_dm_set_actuators (acts : list F)
| op_dm_forward
| op_dm_random (rms : F)
| op_pwfs_forward
| op_camera_integrate (dt : F)
| op_camera_read_out
| op_large_poisson
| op_subtract                 (* array - array *)
| op_iadd                     (* slope += array *)
| op_dot                      (* matrix.dot(array) *)
| op_mode_basis
| op_inverse_tikhonov (rcond : F).

Arguments op_new_wavefront {F}.
Arguments op_dm_forward {F}.
Arguments op_pwfs_forward {F}.
Arguments op_camera_read_out {F}.
Arguments op_large_poisson {F}.
Arguments op_subtract {F}.
Arguments op_iadd {F}.
Arguments op_dot {F}.
Arguments op_mode_basis {F}.

(** One log entry: the operation and, when it raised, the exception. *)
Definition Event (F : Type) : Type := (Op F * option exn)%type.

Definition succeeded {F} (ev : Event F) : Prop := ev.2 = None.

(** The objects with internal state. *)
Record Devices (F Cam Rng : Type) : Type := {
  dm_actuators : list F;      (* deformable_mirror.actuators *)
  camera : Cam;               (* the camera's accumulated charge *)
  rng : Rng                   (* numpy's global random state *)
}.

(** Variables written by the calibration cells and read by the loop. *)
Record Calibration (F W : Type) : Type := {
  wf : W;
  image_ref : list F;
  slopes : list (ndval F);
  reconstruction_matrix : list (list F);
  wf_wfs : W
}.

(** Variables of the probing loop. *)
Record Probe (F W : Type) : Type := {
  slope : ndval F;
  amp : list F;
  dm_wf : W;
  wfs_wf : W;
  image : list F
}.

(** Variables of the closed loop, re-assigned in every iteration. *)
Record Loop (F W : Type) : Type := {
  wf_dm : W;
  wf_pyr : W;
  wfs_image : list F;
  diff_image : list F
}.

Record Notebook (F W Cam Rng : Type) : Type := {
  devices : Devices F Cam Rng;
  calibration : Calibration F W;
  probe : Probe F W;
  loop : Loop F W;
  trace : list (Event F)
}.

(** ** The notebook *)

Section Script.
Context {F : Type} `{Scalar F}.
Variables W Cam Rng IMat : Type.

Abbreviation State := (Notebook F W Cam Rng).

(** *** Field updates *)

Definition with_devices (d : Devices F Cam Rng) (s : State) : State :=
  {| devices := d; calibration := calibration s; probe := probe s;
     loop := loop s; trace := trace s |}.
Definition with_calibration (c : Calibration F W) (s : State) : State :=
  {| devices := devices s; calibration := c; probe := probe s;
     loop := loop s; trace := trace s |}.
Definition with_probe (p : Probe F W) (s : State) : State :=
  {| devices := devices s; calibration := calibration s; probe := p;
     loop := loop s; trace := trace s |}.
Definition with_loop (l : Loop F W) (s : State) : State :=
  {| devices := devices s; calibration := calibration s; probe := probe s;
     loop := l; trace := trace s |}.
Definition log (ev : Event F) (s : State) : State :=
  {| devices := devices s; calibration := calibration s; probe := probe s;
     loop := loop s; trace := trace s ++ [ev] |}.

Definition put_dm_actuators (a : list F) (s : State) : State :=
  with_devices {| dm_actuators := a; camera := camera (devices s);
                  rng := rng (devices s) |} s.
Definition put_camera (c : Cam) (s : State) : State :=
  with_devices {| dm_actuators := dm_actuators (devices s); camera := c;
                  rng := rng (devices s) |} s.
Definition put_rng (g : Rng) (s : State) : State :=
  with_devices {| dm_actuators := dm_actuators (devices s);
                  camera := camera (devices s); rng := g |} s.

Definition put_wf (w : W) (s : State) : State :=
  let c := calibration s in
  with_calibration {| wf := w; image_ref := image_ref c; slopes := slopes c;
    reconstruction_matrix := reconstruction_matrix c; wf_wfs := wf_wfs c |} s.
Definition put_image_ref (v : list F) (s : State) : State :=
  let c := calibration s in
  with_calibration {| wf := wf c; image_ref := v; slopes := slopes c;
    reconstruction_matrix := reconstruction_matrix c; wf_wfs := wf_wfs c |} s.
Definition put_slopes (l : list (ndval F)) (s : State) : State :=
  let c := calibration s in
  with_calibration {| wf := wf c; image_ref := image_ref c; slopes := l;
    reconstruction_matrix := reconstruction_matrix c; wf_wfs := wf_wfs c |} s.
Definition put_reconstruction_matrix (m : list (list F)) (s : State) : State :=
  let c := calibration s in
  with_calibration {| wf := wf c; image_ref := image_ref c; slopes := slopes c;
    reconstruction_matrix := m; wf_wfs := wf_wfs c |} s.
Definition put_wf_wfs (w : W) (s : State) : State :=
  let c := calibration s in
  with_calibration {| wf := wf c; image_ref := image_ref c; slopes := slopes c;
    reconstruction_matrix := reconstruction_matrix c; wf_wfs := w |} s.

Definition put_slope (x : ndval F) (s : State) : State :=
  let p := probe s in
  with_probe {| slope := x; amp := amp p; dm_wf := dm_wf p;
                wfs_wf := wfs_wf p; image := image p |} s.
Definition put_amp (v : list F) (s : State) : State :=
  let p := probe s in
  with_probe {| slope := slope p; amp := v; dm_wf := dm_wf p;
                wfs_wf := wfs_wf p; image := image p |} s.
Definition put_dm_wf (w : W) (s : State) : State :=
  let p := probe s in
  with_probe {| slope := slope p; amp := amp p; dm_wf := w;
                wfs_wf := wfs_wf p; image := image p |} s.
Definition put_wfs_wf (w : W) (s : State) : State :=
  let p := probe s in
  with_probe {| slope := slope p; amp := amp p; dm_wf := dm_wf p;
                wfs_wf := w; image := image p |} s.
Definition put_image (v : list F) (s : State) : State :=
  let p := probe s in
  with_probe {| slope := slope p; amp := amp p; dm_wf := dm_wf p;
                wfs_wf := wfs_wf p; image := v |} s.

Definition put_wf_dm (w : W) (s : State) : State :=
  let l := loop s in
  with_loop {| wf_dm := w; wf_pyr := wf_pyr l; wfs_image := wfs_image l;
               diff_image := diff_image l |} s.
Definition put_wf_pyr (w : W) (s : State) : State :=
  let l := loop s in
  with_loop {| wf_dm := wf_dm l; wf_pyr := w; wfs_image := wfs_image l;
               diff_image := diff_image l |} s.
Definition put_wfs_image (v : list F) (s : State) : State :=
  let l := loop s in
  with_loop {| wf_dm := wf_dm l; wf_pyr := wf_pyr l; wfs_image := v;
               diff_image := diff_image l |} s.
Definition put_diff_image (v : list F) (s : State) : State :=
  let l := loop s in
  with_loop {| wf_dm := wf_dm l; wf_pyr := wf_pyr l; wfs_image := wfs_image l;
               diff_image := v |} s.

(** *** The monad: state, and an exception that ends the run *)

Inductive outcome (A : Type) : Type :=
| Returns (a : A) (s : State)
| Raises (e : exn) (s : State).
Arguments Returns {A}.
Arguments Raises {A}.

Definition M (A : Type) : Type := State -> outcome A.

Definition ret {A} (a : A) : M A := fun s => Returns a s.

Definition bind {A B} (m : M A) (k : A -> M B) : M B := fun s =>
  match m s with
  | Returns a s1 => k a s1
  | Raises e s1 => Raises e s1
  end.

(** A plain assignment. *)
Definition assign (f : State -> State) : M unit := fun s => Returns tt (f s).

(** Reading the state. *)
Definition read {A} (f : State -> A) : M A := fun s => Returns (f s) s.

(** An operation that can raise: it is logged, and its exception, if any,
    leaves the program. *)
Definition call {A} (o : Op F) (r : State -> exn + A) : M A := fun s =>
  match r s with
  | inr a => Returns a (log (o, None) s)
  | inl e => Raises e (log (o, Some e) s)
  end.

(** The state a run ends in, whether it returned or raised. *)
Definition final {A} (o : outcome A) : State :=
  match o with
  | Returns _ s => s
  | Raises _ s => s
  end.

(** [for x in l: body] *)
Fixpoint for_each {A} (l : list A) (body : A -> M unit) : M unit :=
  match l with
  | [] => ret tt
  | x :: l' => bind (body x) (fun _ => for_each l' body)
  end.

(** [for i in range(n): body] *)
Definition for_range (n : nat) (body : nat -> M unit) : M unit :=
  for_each (seq 0 n) body.

Declare Scope nb_scope.
Delimit Scope nb_scope with nb.
Notation "x <- m ;; k" := (bind m (fun x => k))
  (at level 100, m at next level, right associativity) : nb_scope.
Notation "m ;; k" := (bind m (fun _ => k))
  (at level 100, right associativity) : nb_scope.
Local Open Scope nb_scope.

(** *** Parameters (cells at lines 44-47, 160, 212 and 249-251) *)

Definition wavelength_wfs : F := lit 842 1000000000.       (* 842.0E-9 *)
Definition zero_magnitude_flux : F := of_Z 39000000000.    (* 3.9E10 *)
Definition stellar_magnitude : Z := 0.
Definition probe_amp : F := fmul (lit 1 100) wavelength_wfs.
Definition rcond : F := lit 1 1000.                        (* 1E-3 *)
Definition delta_t : F := lit 1 1000.                      (* 1E-3 *)
Definition leakage : F := lit 1 100.                       (* 0.01 *)
Definition gain : F := lit 1 2.                            (* 0.5 *)

Variable lib : Library F W Cam Rng IMat.

(** [deformable_mirror.actuators = a] *)
Definition set_actuators (a : list F) : M unit :=
  call (op_dm_set_actuators a) (fun _ => inr tt) ;;
  assign (put_dm_actuators a).

(** [camera.integrate(w, dt)] *)
Definition camera_integrate (w : State -> W) (dt : F) : M unit :=
  c <- call (op_camera_integrate dt)
            (fun s => integrate lib (camera (devices s)) (w s) dt) ;;
  assign (put_camera c).

(** [camera.read_out()] *)
Definition camera_read_out : M (list F) :=
  r <- call op_camera_read_out (fun s => read_out lib (camera (devices s))) ;;
  assign (put_camera r.2) ;;
  ret r.1.

(** *** The reference image (lines 131-137) *)

Definition cell_reference : M unit :=
  w <- call op_new_wavefront (fun _ => new_wavefront lib wavelength_wfs) ;;
  assign (put_wf w) ;;
  w <- call (op_set_total_power (of_Z 1))
            (fun s => set_total_power lib (wf (calibration s)) (of_Z 1)) ;;
  assign (put_wf w) ;;
  w <- call op_pwfs_forward (fun s => pwfs_forward lib (wf (calibration s))) ;;
  camera_integrate (fun _ => w) (of_Z 1) ;;
  r <- camera_read_out ;;
  assign (put_image_ref r) ;;
  assign (fun s => put_image_ref (normalize (image_ref (calibration s))) s).

(** *** The interaction matrix (lines 160-188) *)

(** The body of [for s in [1, -1]]. *)
Definition probe_once (ind : nat) (sgn : Z) : M unit :=
  assign (put_amp (replicate (num_modes lib) (of_Z 0))) ;;
  assign (fun s => put_amp (<[ind := fmul (of_Z sgn) probe_amp]> (amp (probe s))) s) ;;
  a <- read (fun s => amp (probe s)) ;;
  set_actuators a ;;
  w <- call op_dm_forward
            (fun s => dm_forward lib (dm_actuators (devices s)) (wf (calibration s))) ;;
  assign (put_dm_wf w) ;;
  w <- call op_pwfs_forward (fun s => pwfs_forward lib (dm_wf (probe s))) ;;
  assign (put_wfs_wf w) ;;
  camera_integrate (fun s => wfs_wf (probe s)) (of_Z 1) ;;
  r <- camera_read_out ;;
  assign (put_image r) ;;
  assign (fun s => put_image (normalize (image (probe s))) s) ;;
  d <- call op_subtract
            (fun s => np_broadcast fsub (image (probe s)) (image_ref (calibration s))) ;;
  x <- call op_iadd
            (fun s => nd_iadd (slope (probe s))
                        (divide_by (scale (of_Z sgn) d) (fmul (of_Z 2) probe_amp))) ;;
  assign (put_slope x).

(** The body of [for ind in range(num_modes)]; the progress message is
    printed text only and is left out. *)
Definition probe_mode (ind : nat) : M unit :=
  assign (put_slope (Num (of_Z 0))) ;;
  for_each [1%Z; (-1)%Z] (probe_once ind) ;;
  assign (fun s => put_slopes (slopes (calibration s) ++ [slope (probe s)]) s).

(** [ModeBasis(slopes)] keeps the list of modes; the matrix is asked for
    in the next cell. *)
Definition cell_interaction : M unit :=
  assign (put_slopes []) ;;
  w <- call op_new_wavefront (fun _ => new_wavefront lib wavelength_wfs) ;;
  assign (put_wf w) ;;
  w <- call (op_set_total_power (of_Z 1))
            (fun s => set_total_power lib (wf (calibration s)) (of_Z 1)) ;;
  assign (put_wf w) ;;
  for_range (num_modes lib) probe_mode.

(** *** The reconstruction matrix (lines 212-213) *)

Definition cell_reconstruction : M unit :=
  m <- call op_mode_basis
            (fun s => transformation_matrix lib (slopes (calibration s))) ;;
  r <- call (op_inverse_tikhonov rcond) (fun _ => inverse_tikhonov lib m rcond) ;;
  assign (put_reconstruction_matrix r).

(** *** The star and the initial mirror shape (lines 229-233) *)

Definition total_flux : F :=
  fmul zero_magnitude_flux
       (float_pow lib (of_Z 10) (fdiv (of_Z (- stellar_magnitude)) (lit 5 2))).

Definition cell_wavefront : M unit :=
  w <- call op_new_wavefront (fun _ => new_wavefront lib wavelength_wfs) ;;
  assign (put_wf_wfs w) ;;
  w <- call (op_set_total_power total_flux)
            (fun s => set_total_power lib (wf_wfs (calibration s)) total_flux) ;;
  assign (put_wf_wfs w) ;;
  r <- call (op_dm_random (fmul (lit 1 10) wavelength_wfs))
            (fun s => dm_random lib (rng (devices s)) (dm_actuators (devices s))
                        (fmul (lit 1 10) wavelength_wfs)) ;;
  assign (put_dm_actuators r.1) ;;
  assign (put_rng r.2).

(** *** The closed loop (lines 295-304 and 365-374) *)

(** The body of [for i in range(10)]. *)
Definition closed_loop_iteration : M unit :=
  w <- call op_dm_forward
            (fun s => dm_forward lib (dm_actuators (devices s)) (wf_wfs (calibration s))) ;;
  assign (put_wf_dm w) ;;
  w <- call op_pwfs_forward (fun s => pwfs_forward lib (wf_dm (loop s))) ;;
  assign (put_wf_pyr w) ;;
  camera_integrate (fun s => wf_pyr (loop s)) (of_Z 1) ;;
  r <- camera_read_out ;;
  p <- call op_large_poisson (fun s => large_poisson lib (rng (devices s)) r) ;;
  assign (put_rng p.2) ;;
  assign (put_wfs_image p.1) ;;
  assign (fun s => put_wfs_image (normalize (wfs_image (loop s))) s) ;;
  d <- call op_subtract
            (fun s => np_broadcast fsub (wfs_image (loop s)) (image_ref (calibration s))) ;;
  assign (put_diff_image d) ;;
  y <- call op_dot
            (fun s => np_dot (reconstruction_matrix (calibration s)) (diff_image (loop s))) ;;
  a <- call op_subtract
            (fun s => np_broadcast fsub
                        (scale (fsub (of_Z 1) leakage) (dm_actuators (devices s)))
                        (scale gain y)) ;;
  set_actuators a.

Definition closed_loop : M unit := for_range 10 (fun _ => closed_loop_iteration).

(** *** The cells in notebook order *)

(** The calibration phase: reference image, interaction matrix and its
    regularised inverse. *)
Definition calibrate : M unit :=
  cell_reference ;;
  cell_interaction ;;
  cell_reconstruction.

Definition notebook : M unit :=
  calibrate ;;
  cell_wavefront ;;
  closed_loop ;;
  closed_loop.
End Script.

Arguments Returns {F W Cam Rng A}.
Arguments Raises {F W Cam Rng A}.

(** ** Describing runs

    The vocabulary of the statements below: the order of operations, what
    one iteration and one probe compute, and what it means for a program
    not to look at the random generator. *)

(** ** The order of operations

    The notebook has no branch on data: which operations run, and in which
    order, is fixed by the program text.  [follows plan m] says that a run
    of [m] that returns has performed exactly the operations of [plan], all
    of them successfully, and that a run that raises has performed an
    initial part of [plan] whose last operation is the one that raised. *)

Inductive Kind : Type :=
| K_new_wavefront | K_set_total_power | K_dm_set_actuators | K_dm_forward
| K_dm_random | K_pwfs_forward | K_camera_integrate | K_camera_read_out
| K_large_poisson | K_subtract | K_iadd | K_dot | K_mode_basis
| K_inverse_tikhonov.

Definition kind {F} (o : Op F) : Kind :=
  match o with
  | op_new_wavefront => K_new_wavefront
  | op_set_total_power _ => K_set_total_power
  | op_dm_set_actuators _ => K_dm_set_actuators
  | op_dm_forward => K_dm_forward
  | op_dm_random _ => K_dm_random
  | op_pwfs_forward => K_pwfs_forward
  | op_camera_integrate _ => K_camera_integrate
  | op_camera_read_out => K_camera_read_out
  | op_large_poisson => K_large_poisson
  | op_subtract => K_subtract
  | op_iadd => K_iadd
  | op_dot => K_dot
  | op_mode_basis => K_mode_basis
  | op_inverse_tikhonov _ => K_inverse_tikhonov
  end.

Definition kinds {F} (t : list (Event F)) : list Kind := map (fun ev => kind ev.1) t.

Arguments kinds {F} t : simpl never.

#[global] Instance Kind_eq_dec : EqDecision Kind.
Proof. solve_decision. Defined.

Section Describing.
Context {F : Type} `{Scalar F}.
Variables W Cam Rng IMat : Type.

Abbreviation State := (Notebook F W Cam Rng).
Abbreviation M := (M (F:=F) W Cam Rng).

Definition stops_at (e : exn) (t : list (Event F)) : Prop :=
  exists pre o, t = pre ++ [(o, Some e)] /\ Forall succeeded pre.

Definition follows {A} (plan : list Kind) (m : M A) : Prop :=
  forall s, exists t,
    trace (final (m s)) = trace s ++ t /\
    match m s with
    | Returns _ _ => kinds t = plan /\ Forall succeeded t
    | Raises e _ => stops_at e t /\ kinds t `prefix_of` plan
    end.

Variable lib : Library F W Cam Rng IMat.

Definition plan_new_wavefront : list Kind := [K_new_wavefront; K_set_total_power].

Definition plan_exposure : list Kind :=
  [K_pwfs_forward; K_camera_integrate; K_camera_read_out].

Definition plan_reference : list Kind := plan_new_wavefront ++ plan_exposure.

Definition plan_probe : list Kind :=
  [K_dm_set_actuators; K_dm_forward] ++ plan_exposure ++ [K_subtract; K_iadd].

Definition plan_interaction : list Kind :=
  plan_new_wavefront ++ concat (replicate (num_modes lib) (plan_probe ++ plan_probe)).

Definition plan_reconstruction : list Kind := [K_mode_basis; K_inverse_tikhonov].

Definition plan_wavefront : list Kind := plan_new_wavefront ++ [K_dm_random].

Definition plan_iteration : list Kind :=
  [K_dm_forward] ++ plan_exposure ++
  [K_large_poisson; K_subtract; K_dot; K_subtract; K_dm_set_actuators].

Definition plan_closed_loop : list Kind := concat (replicate 10 plan_iteration).

Definition plan_calibration : list Kind :=
  plan_reference ++ plan_interaction ++ plan_reconstruction.

Definition plan_notebook : list Kind :=
  plan_calibration ++ plan_wavefront ++ plan_closed_loop ++ plan_closed_loop.

(** The operations of one iteration, in the order they are logged. *)
Definition iteration_events (a : list F) : list (Event F) :=
  [ (op_dm_forward, None); (op_pwfs_forward, None);
    (op_camera_integrate (of_Z 1), None); (op_camera_read_out, None);
    (op_large_poisson, None); (op_subtract, None); (op_dot, None);
    (op_subtract, None); (op_dm_set_actuators a, None) ].

(** What an iteration that ran to its end has computed: [w1] and [w2]
    are the wavefront behind the mirror and behind the pyramid, [c1] the
    camera after the exposure, [raw] the read-out that leaves the camera
    in [c2], [counts] the photon counts that leave the generator in [g],
    [d] the difference image, [y] the reconstructed correction and [a]
    the new actuator commands. *)
Record iteration_data : Type := {
  it_w1 : W; it_w2 : W; it_c1 : Cam; it_raw : list F; it_c2 : Cam;
  it_counts : list F; it_g : Rng; it_d : list F; it_y : list F;
  it_a : list F
}.

Definition iteration_runs (s : State) (x : iteration_data) : Prop :=
  dm_forward lib (dm_actuators (devices s)) (wf_wfs (calibration s)) = inr (it_w1 x) /\
  pwfs_forward lib (it_w1 x) = inr (it_w2 x) /\
  integrate lib (camera (devices s)) (it_w2 x) (of_Z 1) = inr (it_c1 x) /\
  read_out lib (it_c1 x) = inr (it_raw x, it_c2 x) /\
  large_poisson lib (rng (devices s)) (it_raw x) = inr (it_counts x, it_g x) /\
  np_broadcast fsub (normalize (it_counts x)) (image_ref (calibration s)) = inr (it_d x) /\
  np_dot (reconstruction_matrix (calibration s)) (it_d x) = inr (it_y x) /\
  np_broadcast fsub (scale (fsub (of_Z 1) leakage) (dm_actuators (devices s)))
               (scale gain (it_y x)) = inr (it_a x).

Definition after_iteration (s : State) (x : iteration_data) : State :=
  {| devices := {| dm_actuators := it_a x; camera := it_c2 x; rng := it_g x |};
     calibration := calibration s;
     probe := probe s;
     loop := {| wf_dm := it_w1 x; wf_pyr := it_w2 x;
                wfs_image := normalize (it_counts x); diff_image := it_d x |};
     trace := trace s ++ iteration_events (it_a x) |}.

(** [steps R n s s']: [s'] is reached from [s] by [n] steps of [R]. *)
Fixpoint steps (R : State -> State -> Prop) (n : nat) (s s' : State) : Prop :=
  match n with
  | O => s' = s
  | S n' => exists s1, R s s1 /\ steps R n' s1 s'
  end.

Definition iterates (s s' : State) : Prop :=
  closed_loop_iteration lib s = Returns tt s'.


Definition map_state {A} (f : State -> State) (o : outcome W Cam Rng A)
  : outcome W Cam Rng A :=
  match o with
  | Returns a s => Returns a (f s)
  | Raises e s => Raises e (f s)
  end.

(** [m] neither reads nor writes the generator's state. *)
Definition rng_blind {A} (m : M A) : Prop :=
  forall g s, m (put_rng g s) = map_state (put_rng g) (m s).

(** [amp] as the probing loop builds it: zeros, then one entry. *)
Definition probe_command (ind : nat) (sgn : Z) : list F :=
  <[ind := fmul (of_Z sgn) probe_amp]> (replicate (num_modes lib) (of_Z 0)).

(** The normalised image [img] the sensor gives for wavefront [w] when the
    mirror holds [a]; the exposure takes the camera from [cam] to [cam']. *)
Definition sensor_image (w : W) (a : list F) (cam : Cam) (img : list F) (cam' : Cam)
  : Prop :=
  exists w1 w2 c1 raw,
    dm_forward lib a w = inr w1 /\
    pwfs_forward lib w1 = inr w2 /\
    integrate lib cam w2 (of_Z 1) = inr c1 /\
    read_out lib c1 = inr (raw, cam') /\
    img = normalize raw.

(** One pass of [slope += s * (image - image_ref) / (2 * probe_amp)]. *)
Definition accumulate (acc : ndval F) (sgn : Z) (img ref : list F) (acc' : ndval F)
  : Prop :=
  exists d,
    np_broadcast fsub img ref = inr d /\
    nd_iadd acc (divide_by (scale (of_Z sgn) d) (fmul (of_Z 2) probe_amp)) = inr acc'.

Definition probe_events (a : list F) : list (Event F) :=
  [ (op_dm_set_actuators a, None); (op_dm_forward, None); (op_pwfs_forward, None);
    (op_camera_integrate (of_Z 1), None); (op_camera_read_out, None);
    (op_subtract, None); (op_iadd, None) ].

(** The column the probing loop computes for actuator [ind] with
    wavefront [w] and reference [ref]: the positive probe first, then the
    negative one, each image entering the sum as the code writes it. *)
Definition probe_column (w : W) (ref : list F) (ind : nat)
           (cam : Cam) (Ip Im : list F) (cam' : Cam) (col : ndval F) : Prop :=
  exists c1 acc1,
    sensor_image w (probe_command ind 1) cam Ip c1 /\
    accumulate (Num (of_Z 0)) 1 Ip ref acc1 /\
    sensor_image w (probe_command ind (-1)) c1 Im cam' /\
    accumulate acc1 (-1) Im ref col.

(** The exposure as a function: the image and the camera it leaves. *)
Definition expose (w : W) (a : list F) (cam : Cam) : exn + (list F * Cam) :=
  match dm_forward lib a w with
  | inl e => inl e
  | inr w1 =>
      match pwfs_forward lib w1 with
      | inl e => inl e
      | inr w2 =>
          match integrate lib cam w2 (of_Z 1) with
          | inl e => inl e
          | inr c1 =>
              match read_out lib c1 with
              | inl e => inl e
              | inr (raw, cam') => inr (normalize raw, cam')
              end
          end
      end
  end.

End Describing.

(** ** A two-pixel bench

    A small concrete engine, used to run the notebook: two pixels, two
    actuators that modulate the power on their pixel, a camera that
    accumulates charge and is emptied by a read-out, and photon noise that
    multiplies each pixel by the next pre-drawn factor. *)

Module Bench.
Section Engine.
Context {F : Type} `{Scalar F}.

Definition W : Type := list F.
Definition Cam : Type := (F * F)%type.
Definition Rng : Type := list (list F).
Definition IMat : Type := list (ndval F).

Definition bench_forward (a : list F) (w : W) : exn + W :=
  inr (zip_with (fun x k => fmul x (fadd (of_Z 1) (fmul (of_Z 10000000) k))) w a).

Definition bench_integrate (c : Cam) (w : W) (dt : F) : exn + Cam :=
  match w with
  | [x; y] => inr (fadd c.1 (fmul dt x), fadd c.2 (fmul dt y))
  | _ => inl (EngineError 2)
  end.

Definition bench_read_out (c : Cam) : exn + (list F * Cam) :=
  inr ([c.1; c.2], (of_Z 0, of_Z 0)).

Definition bench_poisson (g : Rng) (v : list F) : exn + (list F * Rng) :=
  match g with
  | [] => inr (v, [])
  | k :: g' => inr (zip_with fmul v k, g')
  end.

Definition bench_random (g : Rng) (a : list F) (rms : F) : exn + (list F * Rng) :=
  match g with
  | [] => inr (map (fun _ => of_Z 0) a, [])
  | k :: g' => inr (scale rms k, g')
  end.

Definition bench_inverse (m : IMat) (rc : F) : exn + list (list F) :=
  inr (map (fun c => match c with
                     | Arr v => scale (fmul rc (fmul rc rc)) v
                     | Num x => [x]
                     end) m).

Definition bench : Library F W Cam Rng IMat := {|
  num_modes := 2;
  new_wavefront := fun _ => inr [of_Z 1; of_Z 3];
  set_total_power := fun w p => inr (scale p (normalize w));
  dm_forward := bench_forward;
  dm_random := bench_random;
  pwfs_forward := fun w => inr w;
  integrate := bench_integrate;
  read_out := bench_read_out;
  large_poisson := bench_poisson;
  transformation_matrix := fun l => inr l;
  inverse_tikhonov := bench_inverse;
  float_pow := fun _ _ => of_Z 1
|}.

(** The bench with the shutter closed and no photon noise: every
    read-out is the all-zero image. *)
Definition dark : Library F W Cam Rng IMat := {|
  num_modes := 2;
  new_wavefront := fun _ => inr [of_Z 1; of_Z 3];
  set_total_power := fun w p => inr (scale p (normalize w));
  dm_forward := bench_forward;
  dm_random := bench_random;
  pwfs_forward := fun w => inr w;
  integrate := bench_integrate;
  read_out := fun _ => inr ([of_Z 0; of_Z 0], (of_Z 0, of_Z 0));
  large_poisson := fun g v => inr (v, g);
  transformation_matrix := fun l => inr l;
  inverse_tikhonov := bench_inverse;
  float_pow := fun _ _ => of_Z 1
|}.

(** The bench with an engine that cannot build a wavefront. *)
Definition broken : Library F W Cam Rng IMat := {|
  num_modes := 2;
  new_wavefront := fun _ => inl (EngineError 1);
  set_total_power := fun w p => inr (scale p (normalize w));
  dm_forward := bench_forward;
  dm_random := bench_random;
  pwfs_forward := fun w => inr w;
  integrate := bench_integrate;
  read_out := bench_read_out;
  large_poisson := bench_poisson;
  transformation_matrix := fun l => inr l;
  inverse_tikhonov := bench_inverse;
  float_pow := fun _ _ => of_Z 1
|}.

(** A kernel before the first cell has run: nothing is bound yet. *)
Definition fresh (g : Rng) : Notebook F W Cam Rng := {|
  devices := {| dm_actuators := [of_Z 0; of_Z 0]; camera := (of_Z 0, of_Z 0);
                rng := g |};
  calibration := {| wf := []; image_ref := []; slopes := [];
                    reconstruction_matrix := []; wf_wfs := [] |};
  probe := {| slope := Num (of_Z 0); amp := []; dm_wf := []; wfs_wf := [];
              image := [] |};
  loop := {| wf_dm := []; wf_pyr := []; wfs_image := []; diff_image := [] |};
  trace := []
|}.

(** The kernel after the reference cell. *)
Definition referenced : Notebook F W Cam Rng :=
  final (cell_reference bench (fresh [])).

(** The kernel after calibration and the cell that sets up the star and
    draws the mirror's initial shape from [g]. *)
Definition ready (g : Rng) : Notebook F W Cam Rng :=
  final (bind (calibrate bench) (fun _ => cell_wavefront bench) (fresh g)).
End Engine.
End Bench.

(** ** The camera's protocol *)

(** Reading a log for the way it uses the camera.  An exposure has to be
    read out before anything else is done; [camera_protocol b l] is
    [Some b'] when the operations [l], started with the camera holding an
    exposure ([b = true]) or not, respect this and leave the camera holding
    an exposure or not ([b']), and [None] when they do not. *)
Fixpoint camera_protocol (exposed : bool) (l : list Kind) : option bool :=
  match l with
  | [] => Some exposed
  | K_camera_integrate :: l' =>
      if exposed then None else camera_protocol true l'
  | K_camera_read_out :: l' =>
      if exposed then camera_protocol false l' else None
  | _ :: l' =>
      if exposed then None else camera_protocol false l'
  end.

(** ** The diagnostics (lines 267-279, 306 and 322-326)

    The cells that measure the wavefront before and after the loop.  They
    compare numbers, which [Scalar] does not do. *)

Class Compare (F : Type) : Type := {
  fltb : F -> F -> bool;    (* x < y, false when either is NaN *)
  feqb : F -> F -> bool     (* x == y, false when either is NaN *)
}.

#[global] Instance B64_compare : Compare float := {|
  fltb := PrimFloat.ltb;
  feqb := PrimFloat.eqb
|}.

#[global] Instance Exact_compare : Compare Qc := {|
  fltb := fun x y : Qc => negb (Qle_bool (this y) (this x));
  feqb := fun x y : Qc => Qeq_bool (this x) (this y)
|}.

(** What numpy raises in these cells. *)
Inductive np_exn : Type :=
| IndexError                  (* boolean index did not match the array *)
| Raised (e : exn).

Section Diagnostics.
Context {F : Type} `{Scalar F} `{Compare F}.

(** [v[mask]] for a boolean [mask] *)
Definition np_select (mask : list bool) (v : list F) : np_exn + list F :=
  if decide (length mask = length v)
  then inr (map snd (filter (fun p => p.1 = true) (zip mask v)))
  else inl IndexError.

(** [np.mean(v)]; the mean of no number is [0 / 0]. *)
Definition np_mean (v : list F) : F :=
  fdiv (np_sum v) (of_Z (Z.of_nat (length v))).

(** [np.mean(opd[aperture > 0])] *)
Definition piston (aperture opd : list F) : np_exn + F :=
  match np_select (map (fltb (of_Z 0)) aperture) opd with
  | inl e => inl e
  | inr inside => inr (np_mean inside)
  end.

(** [aperture * (opd - np.mean(opd[aperture > 0]))]: the value given to
    [input_opd] and to [residual_opd]. *)
Definition opd_in_aperture (aperture opd : list F) : np_exn + list F :=
  match piston aperture opd with
  | inl e => inl e
  | inr m =>
      match np_broadcast fmul aperture (map (fun x => fsub x m) opd) with
      | inl e => inl (Raised e)
      | inr r => inr r
      end
  end.

(** The larger of two numbers as numpy's reductions take it: a NaN wins. *)
Definition max2 (a b : F) : F :=
  if negb (feqb a a) then a
  else if negb (feqb b b) then b
  else if fltb a b then b else a.

(** [v.max()] *)
Definition np_max (v : list F) : exn + F :=
  match v with
  | [] => inl ValueError
  | x :: l => inr (fold_left max2 l x)
  end.

Variables W Cam Rng IMat : Type.
Variable lib : Library F W Cam Rng IMat.

(** [propagator.forward(w).power], an operation of the engine. *)
Variable focal_power : W -> exn + list F.

(** [Inorm = propagator.forward(wf_wfs).power.max()] *)
Definition Inorm (wf_wfs : W) : exn + F :=
  match focal_power wf_wfs with
  | inl e => inl e
  | inr p => np_max p
  end.

(** [propagator.forward(deformable_mirror.forward(wf_wfs)).power / Inorm]:
    the value given to [PSF_in] and to [PSF_out]. *)
Definition PSF (acts : list F) (wf_wfs : W) (norm : F) : exn + list F :=
  match dm_forward lib acts wf_wfs with
  | inl e => inl e
  | inr w =>
      match focal_power w with
      | inl e => inl e
      | inr p => inr (divide_by p norm)
      end
  end.

(** [input_strehl = PSF_in.max()] and [strehl = PSF_out.max()], with the
    normalisation taken from the same star. *)
Definition strehl (acts : list F) (wf_wfs : W) : exn + F :=
  match Inorm wf_wfs with
  | inl e => inl e
  | inr norm =>
      match PSF acts wf_wfs norm with
      | inl e => inl e
      | inr psf => np_max psf
      end
  end.
End Diagnostics.

(** ** Running the monad *)

Section Running.
Context {F : Type} `{Scalar F}.
Variables W Cam Rng IMat : Type.

Abbreviation State := (Notebook F W Cam Rng).
Abbreviation M := (M (F:=F) W Cam Rng).

Lemma bind_returns {A B} (m : M A) (k : A -> M B) s b s' :
  bind m k s = Returns b s' ->
  exists a s1, m s = Returns a s1 /\ k a s1 = Returns b s'.
Proof.
  unfold bind. destruct (m s) as [a s1|e s1]; [eauto|discriminate].
Qed.

Lemma bind_run {A B} (m : M A) (k : A -> M B) s a s1 :
  m s = Returns a s1 -> bind m k s = k a s1.
Proof. unfold bind. now intros ->. Qed.

Lemma bind_raises {A B} (m : M A) (k : A -> M B) s e s1 :
  m s = Raises e s1 -> bind m k s = Raises e s1.
Proof. unfold bind. now intros ->. Qed.

Lemma call_returns {A} o (r : State -> exn + A) s a s' :
  call o r s = Returns a s' -> r s = inr a /\ s' = log (o, None) s.
Proof.
  unfold call. destruct (r s); intros [= ]; subst; auto.
Qed.

Lemma call_run {A} o (r : State -> exn + A) s a :
  r s = inr a -> call o r s = Returns a (log (o, None) s).
Proof. unfold call. now intros ->. Qed.

Lemma call_raise {A} o (r : State -> exn + A) s e :
  r s = inl e -> call o r s = Raises e (log (o, Some e) s).
Proof. unfold call. now intros ->. Qed.
End Running.

(** Symbolic execution of a run that returned: the operations are taken in
    program order, each with the equation that says what it returned. *)
Ltac run_calls Hrun :=
  unfold bind, call, assign, read, ret in Hrun;
  repeat match type of Hrun with
         | context [match ?r with inl _ => _ | inr _ => _ end] =>
             destruct r eqn:?; cbn in Hrun; [discriminate Hrun|]
         end.

(** Two notebook states are equal when their five parts are. *)
Lemma notebook_ext {F W Cam Rng} (a b : Notebook F W Cam Rng) :
  devices a = devices b -> calibration a = calibration b -> probe a = probe b ->
  loop a = loop b -> trace a = trace b -> a = b.
Proof. destruct a, b; cbn; intros; subst; reflexivity. Qed.

Ltac state_eq :=
  apply notebook_ext; cbn; rewrite <- ?app_assoc; try reflexivity.

(** ** One closed-loop iteration, step by step *)

Section Iteration.
Context {F : Type} `{Scalar F}.
Variables W Cam Rng IMat : Type.
Variable lib : Library F W Cam Rng IMat.

Abbreviation State := (Notebook F W Cam Rng).

Lemma iteration_inv s s' :
  closed_loop_iteration lib s = Returns tt s' ->
  exists x, iteration_runs lib s x /\ s' = after_iteration s x.
Proof.
  unfold closed_loop_iteration, camera_integrate, camera_read_out, set_actuators.
  intros Hrun. run_calls Hrun.
  repeat match goal with p : (_ * _)%type |- _ => destruct p end.
  cbn in *. injection Hrun as <-.
  eexists {| it_w1 := _ |}. unfold iteration_runs, after_iteration; cbn.
  split; [repeat split; eassumption|].
  state_eq.
Qed.

Lemma iteration_run s x :
  iteration_runs lib s x ->
  closed_loop_iteration lib s = Returns tt (after_iteration s x).
Proof.
  intros (E1 & E2 & E3 & E4 & E5 & E6 & E7 & E8).
  unfold closed_loop_iteration, camera_integrate, camera_read_out, set_actuators,
    bind, call, assign, read, ret.
  cbn. rewrite E1; cbn. rewrite E2; cbn. rewrite E3; cbn. rewrite E4; cbn.
  rewrite E5; cbn. rewrite E6; cbn. rewrite E7; cbn. rewrite E8; cbn.
  f_equal. unfold after_iteration. state_eq.
Qed.
End Iteration.

(** ** The order of operations *)

Lemma kinds_app {F} (t1 t2 : list (Event F)) : kinds (t1 ++ t2) = kinds t1 ++ kinds t2.
Proof. apply map_app. Qed.

Lemma kinds_length {F} (t : list (Event F)) : length (kinds t) = length t.
Proof. apply length_map. Qed.

Section Plans.
Context {F : Type} `{Scalar F}.
Variables W Cam Rng IMat : Type.

Abbreviation State := (Notebook F W Cam Rng).
Abbreviation M := (M (F:=F) W Cam Rng).

Lemma follows_ret {A} (a : A) : follows [] (ret a : M A).
Proof. intros s. exists []. cbn. rewrite app_nil_r. auto. Qed.

Lemma follows_assign (f : State -> State) :
  (forall s, trace (f s) = trace s) -> follows [] (assign f : M unit).
Proof. intros Hf s. exists []. cbn. rewrite app_nil_r. auto. Qed.

Lemma follows_read {A} (f : State -> A) : follows [] (read f : M A).
Proof. intros s. exists []. cbn. rewrite app_nil_r. auto. Qed.

Lemma follows_call {A} o (r : State -> exn + A) : follows [kind o] (call o r).
Proof.
  intros s. unfold call. destruct (r s) as [e|a]; cbn.
  - exists [(o, Some e)]. split; [reflexivity|]. split.
    + exists [], o. auto.
    + reflexivity.
  - exists [(o, None)]. split; [reflexivity|]. split; [reflexivity|].
    repeat constructor.
Qed.

Lemma follows_bind {A B} p1 p2 (m : M A) (k : A -> M B) :
  follows p1 m -> (forall a, follows p2 (k a)) -> follows (p1 ++ p2) (bind m k).
Proof.
  intros Hm Hk s. destruct (Hm s) as (t1 & E1 & P1). unfold bind.
  destruct (m s) as [a s1|e s1]; cbn in *.
  - destruct P1 as [K1 S1].
    destruct (Hk a s1) as (t2 & E2 & P2). exists (t1 ++ t2).
    split; [rewrite E2, E1; apply eq_sym, app_assoc|].
    destruct (k a s1) as [b s2|e s2]; cbn in *.
    + destruct P2 as [K2 S2]. split.
      * now rewrite kinds_app, K1, K2.
      * apply Forall_app; auto.
    + destruct P2 as [(pre & o & -> & S2) K2]. split.
      * exists (t1 ++ pre), o. split; [apply app_assoc|apply Forall_app; auto].
      * rewrite kinds_app, K1. now apply prefix_app.
  - exists t1. split; [assumption|]. destruct P1 as [S1 K1]. split; [assumption|].
    now apply prefix_app_r.
Qed.

Lemma follows_plan_eq {A} p q (m : M A) : follows p m -> p = q -> follows q m.
Proof. now intros ? <-. Qed.

Lemma follows_for_each {A} p (l : list A) (body : A -> M unit) :
  (forall x, follows p (body x)) ->
  follows (concat (replicate (length l) p)) (for_each l body).
Proof.
  intros Hb. induction l as [|x l IH]; cbn.
  - apply follows_ret.
  - apply follows_bind; auto.
Qed.

Lemma follows_for_range p n (body : nat -> M unit) :
  (forall i, follows p (body i)) ->
  follows (concat (replicate n p)) (for_range n body).
Proof.
  intros Hb. unfold for_range.
  eapply follows_plan_eq; [apply follows_for_each, Hb|].
  now rewrite length_seq.
Qed.

End Plans.

(** Building the plan of a program from the plans of its parts. *)
Ltac plan_step :=
  first [ apply follows_ret
        | apply follows_read
        | apply follows_call
        | apply follows_assign; intros; reflexivity
        | eapply follows_bind; [|intros] ].

Ltac plan := eapply follows_plan_eq; [repeat plan_step|cbn; try reflexivity].

Section NotebookPlan.
Context {F : Type} `{Scalar F}.
Variables W Cam Rng IMat : Type.
Variable lib : Library F W Cam Rng IMat.

Lemma set_actuators_plan a :
  follows [K_dm_set_actuators] (@set_actuators F W Cam Rng a).
Proof. unfold set_actuators. plan. Qed.

Lemma camera_integrate_plan w dt :
  follows [K_camera_integrate] (camera_integrate lib w dt).
Proof. unfold camera_integrate. plan. Qed.

Lemma camera_read_out_plan : follows [K_camera_read_out] (camera_read_out lib).
Proof. unfold camera_read_out. plan. Qed.

Ltac plan_cells :=
  repeat first [ apply set_actuators_plan
               | apply camera_integrate_plan
               | apply camera_read_out_plan
               | plan_step ].

Lemma cell_reference_plan : follows plan_reference (cell_reference lib).
Proof.
  unfold cell_reference. eapply follows_plan_eq; [plan_cells|reflexivity].
Qed.

Lemma probe_once_plan ind sgn : follows plan_probe (probe_once lib ind sgn).
Proof.
  unfold probe_once. eapply follows_plan_eq; [plan_cells|reflexivity].
Qed.

Lemma probe_mode_plan ind : follows (plan_probe ++ plan_probe) (probe_mode lib ind).
Proof.
  unfold probe_mode. eapply follows_plan_eq.
  - eapply follows_bind; [plan_step|intros].
    eapply follows_bind; [|intros; plan_step].
    apply follows_for_each. intros. apply probe_once_plan.
  - reflexivity.
Qed.

Lemma cell_interaction_plan : follows (plan_interaction lib) (cell_interaction lib).
Proof.
  unfold cell_interaction. eapply follows_plan_eq.
  - do 5 (eapply follows_bind; [plan_step|intros]).
    apply follows_for_range. intros. apply probe_mode_plan.
  - reflexivity.
Qed.

Lemma cell_reconstruction_plan : follows plan_reconstruction (cell_reconstruction lib).
Proof.
  unfold cell_reconstruction. eapply follows_plan_eq; [plan_cells|reflexivity].
Qed.

Lemma cell_wavefront_plan : follows plan_wavefront (cell_wavefront lib).
Proof.
  unfold cell_wavefront. eapply follows_plan_eq; [plan_cells|reflexivity].
Qed.

Lemma closed_loop_iteration_plan : follows plan_iteration (closed_loop_iteration lib).
Proof.
  unfold closed_loop_iteration. eapply follows_plan_eq; [plan_cells|reflexivity].
Qed.

Lemma closed_loop_plan : follows plan_closed_loop (closed_loop lib).
Proof.
  unfold closed_loop, plan_closed_loop. apply follows_for_range.
  intros. apply closed_loop_iteration_plan.
Qed.

Lemma calibrate_plan : follows (plan_calibration lib) (calibrate lib).
Proof.
  unfold plan_calibration, calibrate.
  apply follows_bind; [apply cell_reference_plan|intros].
  apply follows_bind; [apply cell_interaction_plan|intros].
  apply cell_reconstruction_plan.
Qed.

Lemma notebook_plan : follows (plan_notebook lib) (notebook lib).
Proof.
  unfold notebook, plan_notebook.
  apply follows_bind; [apply calibrate_plan|intros].
  apply follows_bind; [apply cell_wavefront_plan|intros].
  apply follows_bind; [apply closed_loop_plan|intros].
  apply closed_loop_plan.
Qed.

Lemma plan_notebook_length : length (plan_notebook lib) = 192 + 14 * num_modes lib.
Proof.
  unfold plan_notebook, plan_calibration, plan_interaction.
  rewrite !length_app. cbn [plan_reference plan_new_wavefront plan_exposure
    plan_reconstruction plan_wavefront plan_closed_loop app length].
  assert (Hc : forall n, length (concat (replicate n (plan_probe ++ plan_probe))) = 14 * n).
  { induction n as [|n IH]; [reflexivity|].
    cbn [replicate concat]. rewrite length_app, IH. cbn. lia. }
  rewrite Hc. cbn. lia.
Qed.
End NotebookPlan.

(** ** The closed loop *)

Section ClosedLoop.
Context {F : Type} `{Scalar F}.
Variables W Cam Rng IMat : Type.
Variable lib : Library F W Cam Rng IMat.

Abbreviation State := (Notebook F W Cam Rng).

Lemma for_each_steps {A} (l : list A) (body : M (F:=F) W Cam Rng unit) s s' :
  for_each l (fun _ => body) s = Returns tt s' ->
  steps (fun a b => body a = Returns tt b) (length l) s s'.
Proof.
  revert s. induction l as [|x l IH]; intros s; cbn.
  - now intros [= ->].
  - intros Hrun. apply bind_returns in Hrun as ([] & s1 & H1 & H2). eauto.
Qed.

Lemma closed_loop_steps s s' :
  closed_loop lib s = Returns tt s' -> steps (iterates lib) 10 s s'.
Proof.
  unfold closed_loop, for_range. intros Hrun.
  apply for_each_steps in Hrun. now rewrite length_seq in Hrun.
Qed.

Lemma np_broadcast_same_shape (f : F -> F -> F) (u v w : list F) :
  length u = length v -> np_broadcast f u v = inr w -> w = zip_with f u v.
Proof.
  unfold np_broadcast. intros E. destruct (decide (length u = length v)); [|done].
  now intros [= <-].
Qed.



(** C2.  An iteration that runs to its end has, in this order: sent the
    star's wavefront through the mirror and the result through the
    pyramid; exposed the camera to it for a time of 1; read the camera out
    and drawn the photon counts; divided the counts by their sum;
    subtracted the reference image; and computed and stored the new
    actuator commands.  Each step consumes what the step before produced,
    and the log shows the operations in that order and no other. *)
Theorem iteration_order (s s' : State) :
  closed_loop_iteration lib s = Returns tt s' ->
  exists c1 raw counts y,
    dm_forward lib (dm_actuators (devices s)) (wf_wfs (calibration s))
      = inr (wf_dm (loop s')) /\
    pwfs_forward lib (wf_dm (loop s')) = inr (wf_pyr (loop s')) /\
    integrate lib (camera (devices s)) (wf_pyr (loop s')) (of_Z 1) = inr c1 /\
    read_out lib c1 = inr (raw, camera (devices s')) /\
    large_poisson lib (rng (devices s)) raw = inr (counts, rng (devices s')) /\
    wfs_image (loop s') = map (fun v => fdiv v (np_sum counts)) counts /\
    np_broadcast fsub (wfs_image (loop s')) (image_ref (calibration s))
      = inr (diff_image (loop s')) /\
    np_dot (reconstruction_matrix (calibration s)) (diff_image (loop s')) = inr y /\
    np_broadcast fsub (scale (fsub (of_Z 1) leakage) (dm_actuators (devices s)))
                 (scale gain y)
      = inr (dm_actuators (devices s')) /\
    trace s' = trace s ++
      [ (op_dm_forward, None); (op_pwfs_forward, None);
        (op_camera_integrate (of_Z 1), None); (op_camera_read_out, None);
        (op_large_poisson, None); (op_subtract, None); (op_dot, None);
        (op_subtract, None);
        (op_dm_set_actuators (dm_actuators (devices s')), None) ].
Proof.
  intros Hrun. apply iteration_inv in Hrun as (x & R & ->).
  destruct R as (E1 & E2 & E3 & E4 & E5 & E6 & E7 & E8).
  exists (it_c1 x), (it_raw x), (it_counts x), (it_y x). cbn.
  repeat (split; [assumption || reflexivity|]). reflexivity.
Qed.

(** *** What an iteration leaves alone *)




Lemma cell_reference_inv s s' :
  cell_reference lib s = Returns tt s' ->
  exists w0 w1 w2 c1 raw,
    new_wavefront lib wavelength_wfs = inr w0 /\
    set_total_power lib w0 (of_Z 1) = inr w1 /\
    pwfs_forward lib w1 = inr w2 /\
    integrate lib (camera (devices s)) w2 (of_Z 1) = inr c1 /\
    read_out lib c1 = inr (raw, camera (devices s')) /\
    image_ref (calibration s') = normalize raw /\
    wf (calibration s') = w1.
Proof.
  unfold cell_reference, camera_integrate, camera_read_out.
  intros Hrun. run_calls Hrun.
  repeat match goal with p : (_ * _)%type |- _ => destruct p end.
  cbn in *. injection Hrun as <-. cbn.
  eexists _, _, _, _, _.
  split; [reflexivity|]. repeat (split; [eassumption|]). split; reflexivity.
Qed.

Lemma cell_reconstruction_inv s s' :
  cell_reconstruction lib s = Returns tt s' ->
  exists m r,
    transformation_matrix lib (slopes (calibration s)) = inr m /\
    inverse_tikhonov lib m rcond = inr r /\
    s' = put_reconstruction_matrix r
           (log (op_inverse_tikhonov rcond, None) (log (op_mode_basis, None) s)).
Proof.
  unfold cell_reconstruction. intros Hrun. run_calls Hrun.
  injection Hrun as <-. eauto.
Qed.

Lemma in_concat_replicate {A} (k : A) n p : In k (concat (replicate n p)) -> In k p.
Proof.
  induction n as [|n IH]; cbn; [tauto|]. rewrite in_app_iff. tauto.
Qed.

Lemma follows_returns {A} p (m : M (F:=F) W Cam Rng A) s a s' :
  follows p m -> m s = Returns a s' ->
  exists t, trace s' = trace s ++ t /\ kinds t = p /\ Forall succeeded t.
Proof.
  intros Hf Hrun. destruct (Hf s) as (t & E & P). rewrite Hrun in E, P. cbn in E.
  exists t. tauto.
Qed.

Lemma follows_raises {A} p (m : M (F:=F) W Cam Rng A) s e s' :
  follows p m -> m s = Raises e s' ->
  exists t, trace s' = trace s ++ t /\ stops_at e t /\ kinds t `prefix_of` p.
Proof.
  intros Hf Hrun. destruct (Hf s) as (t & E & P). rewrite Hrun in E, P. cbn in E.
  exists t. tauto.
Qed.

Lemma follows_length {A} p (m : M (F:=F) W Cam Rng A) s :
  follows p m ->
  exists t, trace (final (m s)) = trace s ++ t /\ length t <= length p.
Proof.
  intros Hf. destruct (Hf s) as (t & E & P). exists t. split; [assumption|].
  destruct (m s).
  - destruct P as [<- _]. now rewrite kinds_length.
  - destruct P as [_ Hp]. apply prefix_length in Hp.
    now rewrite kinds_length in Hp.
Qed.


(** C5.  A loop cell that returns has made exactly ten iterations, one
    after the other, and its operations are ten copies of the iteration's;
    the cell ends, returning or raising, after at most 90 operations, and
    the whole notebook after at most [192 + 14 * num_modes]. *)
Theorem closed_loop_ten_iterations (s : State) :
  (forall s',
     closed_loop lib s = Returns tt s' ->
     steps (iterates lib) 10 s s' /\
     exists t, trace s' = trace s ++ t /\
               kinds t = concat (replicate 10 plan_iteration)) /\
  (forall e s',
     closed_loop lib s = Raises e s' ->
     exists t, trace s' = trace s ++ t /\ stops_at e t) /\
  (exists t, trace (final (closed_loop lib s)) = trace s ++ t /\ length t <= 90) /\
  (exists t, trace (final (notebook lib s)) = trace s ++ t /\
             length t <= 192 + 14 * num_modes lib).
Proof.
  split; [|split; [|split]].
  - intros s' Hrun. split; [now apply closed_loop_steps|].
    destruct (follows_returns (closed_loop_plan lib) Hrun) as (t & E & K & _). eauto.
  - intros e s' Hrun.
    destruct (follows_raises (closed_loop_plan lib) Hrun) as (t & E & K & _). eauto.
  - apply (follows_length s (closed_loop_plan lib)).
  - rewrite <- plan_notebook_length. apply (follows_length s (notebook_plan lib)).
Qed.

Lemma for_each_raises_first {A} (x : A) (l : list A) (body : A -> M (F:=F) W Cam Rng unit)
      s e s1 :
  body x s = Raises e s1 -> for_each (x :: l) body s = Raises e s1.
Proof. intros Hb. cbn. now apply bind_raises. Qed.

(** C6.  Nothing in the notebook handles an error.  A run of the notebook
    either returns, and then every operation it performed succeeded, or it
    raises [e], and then the last operation it performed is the one that
    raised [e] and every operation before it succeeded: nothing is run
    again and nothing runs after the failure.  In particular an exception
    of the engine's first call is the notebook's outcome, an exception in
    the reference cell or in an iteration is the outcome of the notebook
    or of the loop with the state left as it was at that point, and when
    the photon-noise draw raises, the iteration stops there with the
    image variables and the actuator commands untouched. *)
Theorem errors_propagate (s : State) :
  (exists t,
     trace (final (notebook lib s)) = trace s ++ t /\
     match notebook lib s with
     | Returns _ _ => Forall succeeded t
     | Raises e _ => exists pre o, t = pre ++ [(o, Some e)] /\ Forall succeeded pre
     end) /\
  (forall e,
     new_wavefront lib wavelength_wfs = inl e ->
     notebook lib s = Raises e (log (op_new_wavefront, Some e) s)) /\
  (forall e s1,
     cell_reference lib s = Raises e s1 -> notebook lib s = Raises e s1) /\
  (forall e s1,
     closed_loop_iteration lib s = Raises e s1 -> closed_loop lib s = Raises e s1) /\
  (forall e,
     dm_forward lib (dm_actuators (devices s)) (wf_wfs (calibration s)) = inl e ->
     closed_loop_iteration lib s = Raises e (log (op_dm_forward, Some e) s)) /\
  (forall w1 w2 c1 raw c2 e,
     dm_forward lib (dm_actuators (devices s)) (wf_wfs (calibration s)) = inr w1 ->
     pwfs_forward lib w1 = inr w2 ->
     integrate lib (camera (devices s)) w2 (of_Z 1) = inr c1 ->
     read_out lib c1 = inr (raw, c2) ->
     large_poisson lib (rng (devices s)) raw = inl e ->
     exists s1,
       closed_loop_iteration lib s = Raises e s1 /\
       dm_actuators (devices s1) = dm_actuators (devices s) /\
       wfs_image (loop s1) = wfs_image (loop s) /\
       diff_image (loop s1) = diff_image (loop s) /\
       trace s1 = trace s ++
         [ (op_dm_forward, None); (op_pwfs_forward, None);
           (op_camera_integrate (of_Z 1), None); (op_camera_read_out, None);
           (op_large_poisson, Some e) ]).
Proof.
  split; [|split; [|split; [|split; [|split]]]].
  - destruct (notebook_plan lib s) as (t & E & P). exists t. split; [assumption|].
    destruct (notebook lib s); [tauto|]. destruct P as [P _]. exact P.
  - intros e E. unfold notebook, calibrate, cell_reference.
    do 3 (apply bind_raises). now apply call_raise.
  - intros e s1 E. unfold notebook, calibrate. now do 2 (apply bind_raises).
  - intros e s1 E. unfold closed_loop, for_range. cbn [seq].
    now apply for_each_raises_first.
  - intros e E. unfold closed_loop_iteration. apply bind_raises. now apply call_raise.
  - intros w1 w2 c1 raw c2 e E1 E2 E3 E4 E5.
    unfold closed_loop_iteration, camera_integrate, camera_read_out, set_actuators,
      bind, call, assign, read, ret.
    cbn. rewrite E1; cbn. rewrite E2; cbn. rewrite E3; cbn. rewrite E4; cbn.
    rewrite E5; cbn. eexists. split; [reflexivity|]. cbn.
    rewrite <- !app_assoc. auto.
Qed.

(** C7, as the code has it.  The four variables of the loop body carry
    nothing from one iteration to the next: they are written before they
    are read, so two states that agree on the objects and on the
    calibration variables give the same iteration whatever the loop and
    probe variables hold.  What does carry over is inside the objects:
    the new state is computed from the mirror's commands, the camera's
    charge and the generator's state that the iteration started with. *)
Theorem iteration_reads_objects (s1 s2 s1' : State) :
  devices s1 = devices s2 ->
  calibration s1 = calibration s2 ->
  closed_loop_iteration lib s1 = Returns tt s1' ->
  exists s2',
    closed_loop_iteration lib s2 = Returns tt s2' /\
    devices s2' = devices s1' /\ loop s2' = loop s1' /\
    calibration s2' = calibration s1' /\
    exists x,
      iteration_runs lib s1 x /\
      devices s1' = {| dm_actuators := it_a x; camera := it_c2 x; rng := it_g x |}.
Proof.
  intros Ed Ec Hrun. apply iteration_inv in Hrun as (x & R & ->).
  exists (after_iteration s2 x). split.
  - apply iteration_run. unfold iteration_runs in *. now rewrite <- Ed, <- Ec.
  - cbn. repeat split; auto. exists x. auto.
Qed.
End ClosedLoop.

(** ** Calibration does not look at the random generator *)

Section RngBlind.
Context {F : Type} `{Scalar F}.
Variables W Cam Rng IMat : Type.
Variable lib : Library F W Cam Rng IMat.

Abbreviation State := (Notebook F W Cam Rng).
Abbreviation M := (M (F:=F) W Cam Rng).

Lemma rng_blind_ret {A} (a : A) : rng_blind (ret a : M A).
Proof. intros g s. reflexivity. Qed.

Lemma rng_blind_read {A} (f : State -> A) :
  (forall g s, f (put_rng g s) = f s) -> rng_blind (read f).
Proof. intros Hf g s. unfold read. cbn. now rewrite Hf. Qed.

Lemma rng_blind_assign (f : State -> State) :
  (forall g s, f (put_rng g s) = put_rng g (f s)) -> rng_blind (assign f).
Proof. intros Hf g s. unfold assign. cbn. now rewrite Hf. Qed.

Lemma rng_blind_call {A} o (r : State -> exn + A) :
  (forall g s, r (put_rng g s) = r s) -> rng_blind (call o r).
Proof. intros Hr g s. unfold call. rewrite Hr. now destruct (r s). Qed.

Lemma rng_blind_bind {A B} (m : M A) (k : A -> M B) :
  rng_blind m -> (forall a, rng_blind (k a)) -> rng_blind (bind m k).
Proof.
  intros Hm Hk g s. unfold bind. rewrite Hm.
  destruct (m s) as [a s1|e s1]; cbn; [apply Hk|reflexivity].
Qed.

Lemma rng_blind_for_each {A} (l : list A) (body : A -> M unit) :
  (forall x, rng_blind (body x)) -> rng_blind (for_each l body).
Proof.
  intros Hb. induction l as [|x l IH]; cbn.
  - apply rng_blind_ret.
  - apply rng_blind_bind; auto.
Qed.

Ltac blind :=
  repeat first [ apply rng_blind_ret
               | apply rng_blind_read; intros; reflexivity
               | apply rng_blind_assign; intros; reflexivity
               | apply rng_blind_call; intros; reflexivity
               | apply rng_blind_for_each; intros
               | apply rng_blind_bind; [|intros] ].

Lemma calibrate_rng_blind : rng_blind (calibrate lib).
Proof.
  unfold calibrate, cell_reference, cell_interaction, cell_reconstruction,
    for_range, probe_mode, probe_once, camera_integrate, camera_read_out,
    set_actuators.
  blind.
Qed.
End RngBlind.

(** ** Probing the actuators *)

Section Probing.
Context {F : Type} `{Scalar F}.
Variables W Cam Rng IMat : Type.
Variable lib : Library F W Cam Rng IMat.

Abbreviation State := (Notebook F W Cam Rng).

Lemma probe_once_inv ind sgn s s' :
  probe_once lib ind sgn s = Returns tt s' ->
  exists img cam' acc',
    sensor_image lib (wf (calibration s)) (probe_command lib ind sgn) (camera (devices s))
                 img cam' /\
    accumulate (slope (probe s)) sgn img (image_ref (calibration s)) acc' /\
    devices s' = {| dm_actuators := probe_command lib ind sgn; camera := cam';
                    rng := rng (devices s) |} /\
    calibration s' = calibration s /\
    slope (probe s') = acc' /\
    loop s' = loop s /\
    trace s' = trace s ++ probe_events (probe_command lib ind sgn).
Proof.
  unfold probe_once, camera_integrate, camera_read_out, set_actuators.
  intros Hrun. run_calls Hrun.
  repeat match goal with p : (_ * _)%type |- _ => destruct p end.
  cbn in *. injection Hrun as <-.
  eexists _, _, _. split; [|split].
  - unfold sensor_image. eauto 10.
  - unfold accumulate. eauto.
  - cbn. rewrite <- !app_assoc. repeat split; reflexivity.
Qed.

Lemma probe_once_run ind sgn s img cam' acc' :
  sensor_image lib (wf (calibration s)) (probe_command lib ind sgn) (camera (devices s))
               img cam' ->
  accumulate (slope (probe s)) sgn img (image_ref (calibration s)) acc' ->
  exists s', probe_once lib ind sgn s = Returns tt s'.
Proof.
  intros (w1 & w2 & c1 & raw & E1 & E2 & E3 & E4 & ->) (d & E5 & E6).
  unfold probe_command in *.
  unfold probe_once, camera_integrate, camera_read_out, set_actuators,
    bind, call, assign, read, ret.
  cbn. rewrite E1; cbn. rewrite E2; cbn. rewrite E3; cbn. rewrite E4; cbn.
  rewrite E5; cbn. rewrite E6; cbn. eauto.
Qed.

Lemma sensor_image_functional w a cam img1 cam1 img2 cam2 :
  sensor_image lib w a cam img1 cam1 -> sensor_image lib w a cam img2 cam2 ->
  img1 = img2 /\ cam1 = cam2.
Proof.
  intros (w1 & w2 & c1 & raw & E1 & E2 & E3 & E4 & ->)
         (w1' & w2' & c1' & raw' & E1' & E2' & E3' & E4' & ->).
  rewrite E1 in E1'. injection E1' as <-.
  rewrite E2 in E2'. injection E2' as <-.
  rewrite E3 in E3'. injection E3' as <-.
  rewrite E4 in E4'. injection E4' as <- <-. auto.
Qed.

Lemma probe_mode_inv ind s s' :
  probe_mode lib ind s = Returns tt s' ->
  exists Ip Im cam' col,
    probe_column lib (wf (calibration s)) (image_ref (calibration s)) ind
                 (camera (devices s)) Ip Im cam' col /\
    devices s' = {| dm_actuators := probe_command lib ind (-1); camera := cam';
                    rng := rng (devices s) |} /\
    slopes (calibration s') = slopes (calibration s) ++ [col] /\
    wf (calibration s') = wf (calibration s) /\
    image_ref (calibration s') = image_ref (calibration s) /\
    reconstruction_matrix (calibration s') = reconstruction_matrix (calibration s) /\
    wf_wfs (calibration s') = wf_wfs (calibration s) /\
    loop s' = loop s /\
    trace s' = trace s ++ probe_events (probe_command lib ind 1)
                       ++ probe_events (probe_command lib ind (-1)).
Proof.
  unfold probe_mode. intros Hrun.
  apply bind_returns in Hrun as ([] & s0 & H0 & Hrun). injection H0 as <-.
  apply bind_returns in Hrun as ([] & s3 & Hloop & Hfin).
  cbn [for_each] in Hloop.
  apply bind_returns in Hloop as ([] & s1 & H1 & Hloop).
  apply bind_returns in Hloop as ([] & s2 & H2 & H3). injection H3 as <-.
  injection Hfin as <-.
  apply probe_once_inv in H1 as (Ip & c1 & acc1 & I1 & A1 & D1 & C1 & S1 & L1 & T1).
  apply probe_once_inv in H2 as (Im & c2 & acc2 & I2 & A2 & D2 & C2 & S2 & L2 & T2).
  rewrite C1 in *. rewrite D1, S1 in *. cbn in *.
  exists Ip, Im, c2, acc2. split; [exists c1, acc1; auto|].
  rewrite C2, D2, S2, L2, L1, T2, T1. cbn. rewrite <- app_assoc.
  repeat split; reflexivity.
Qed.

Lemma probe_mode_run ind s Ip Im cam' col :
  probe_column lib (wf (calibration s)) (image_ref (calibration s)) ind
               (camera (devices s)) Ip Im cam' col ->
  exists s', probe_mode lib ind s = Returns tt s'.
Proof.
  intros (c1 & acc1 & I1 & A1 & I2 & A2).
  destruct (@probe_once_run ind 1 (put_slope (Num (of_Z 0)) s) Ip c1 acc1 I1 A1)
    as (s1 & H1).
  pose proof (probe_once_inv H1) as (Ip' & c1' & acc1' & I1' & A1' & D1 & C1 & S1 & _).
  destruct (sensor_image_functional I1 I1') as [<- <-].
  assert (acc1' = acc1) as ->.
  { destruct A1 as (d & Ed & Ea), A1' as (d' & Ed' & Ea').
    cbn in *. rewrite Ed in Ed'. injection Ed' as <-. congruence. }
  destruct (@probe_once_run ind (-1) s1 Im cam' col) as (s2 & H2).
  { rewrite C1, D1. exact I2. }
  { rewrite C1, S1. exact A2. }
  unfold probe_mode, bind at 1. cbn [assign for_each].
  unfold bind at 1. unfold bind at 1. rewrite H1.
  unfold bind at 1. rewrite H2. cbn. eauto.
Qed.

Lemma probe_loop n : forall start s s',
  for_each (seq start n) (probe_mode lib) s = Returns tt s' ->
  wf (calibration s') = wf (calibration s) /\
  image_ref (calibration s') = image_ref (calibration s) /\
  exists cols,
    slopes (calibration s') = slopes (calibration s) ++ cols /\
    length cols = n /\
    forall i, i < n ->
      exists cam Ip Im cam' col,
        cols !! i = Some col /\
        probe_column lib (wf (calibration s)) (image_ref (calibration s)) (start + i)
                     cam Ip Im cam' col.
Proof.
  induction n as [|n IH]; intros start s s'; cbn [seq for_each].
  - intros [= <-]. repeat split. exists []. rewrite app_nil_r.
    repeat split. intros i Hi. lia.
  - intros Hrun. apply bind_returns in Hrun as ([] & s1 & H1 & Hrun).
    apply probe_mode_inv in H1
      as (Ip & Im & cam' & col & PC & _ & S1 & W1 & R1 & _).
    apply IH in Hrun as (W2 & R2 & cols & S2 & L2 & Hcols).
    rewrite W1 in *. rewrite R1 in *. repeat split; [assumption..|].
    exists (col :: cols). split; [|split].
    + rewrite S2, S1, <- app_assoc. reflexivity.
    + cbn. now rewrite L2.
    + intros [|i] Hi.
      * exists (camera (devices s)), Ip, Im, cam', col. rewrite Nat.add_0_r. auto.
      * destruct (Hcols i) as (cam & Ip' & Im' & cam2 & col' & E & PC'); [lia|].
        exists cam, Ip', Im', cam2, col'.
        replace (start + S i) with (S start + i) by lia. auto.
Qed.

Lemma probe_command_lookup ind sgn j :
  j < num_modes lib ->
  probe_command lib ind sgn !! j
  = Some (if decide (j = ind) then fmul (of_Z sgn) probe_amp else of_Z 0).
Proof.
  intros Hj. unfold probe_command. destruct (decide (j = ind)) as [->|Hne].
  - apply list_lookup_insert_eq. now rewrite length_replicate.
  - rewrite list_lookup_insert_ne by auto. now apply lookup_replicate_2.
Qed.

Lemma accumulate_twice Ip Im ref col :
  forall acc1,
  accumulate (Num (of_Z 0)) 1 Ip ref acc1 ->
  accumulate acc1 (-1) Im ref col ->
  exists dp dm v,
    np_broadcast fsub Ip ref = inr dp /\
    np_broadcast fsub Im ref = inr dm /\
    np_inplace fadd
      (map (fadd (of_Z 0)) (divide_by (scale (of_Z 1) dp) (fmul (of_Z 2) probe_amp)))
      (divide_by (scale (of_Z (-1)) dm) (fmul (of_Z 2) probe_amp)) = inr v /\
    col = Arr v.
Proof.
  intros acc1 (dp & Ep & E1) (dm & Em & E2).
  unfold nd_iadd in E1. injection E1 as <-. unfold nd_iadd in E2.
  destruct (np_inplace _ _ _) as [e|v] eqn:E; [discriminate|].
  injection E2 as <-. exists dp, dm, v. auto.
Qed.

Lemma sensor_image_length npix w a cam img cam' :
  (forall c raw c', read_out lib c = inr (raw, c') -> length raw = npix) ->
  sensor_image lib w a cam img cam' -> length img = npix.
Proof.
  intros Hpix (w1 & w2 & c1 & raw & _ & _ & _ & E & ->).
  unfold normalize. rewrite length_map. eauto.
Qed.

Lemma accumulate_same_shape acc sgn img ref :
  length img = length ref ->
  match acc with Num _ => True | Arr u => length u = length img end ->
  exists v, accumulate acc sgn img ref (Arr v) /\ length v = length img.
Proof.
  intros L Hacc. unfold accumulate, np_broadcast.
  destruct (decide (length img = length ref)) as [_|]; [|done].
  destruct acc as [x|u]; cbn [nd_iadd].
  - eexists. split; [eexists; split; [reflexivity|]; unfold nd_iadd; reflexivity|].
    unfold divide_by, scale. rewrite !length_map, length_zip_with. lia.
  - assert (Hl : length u
                 = length (divide_by (scale (of_Z sgn) (zip_with fsub img ref))
                                     (fmul (of_Z 2) probe_amp))).
    { unfold divide_by, scale. rewrite !length_map, length_zip_with. lia. }
    eexists. split.
    + eexists. split; [reflexivity|]. unfold nd_iadd, np_inplace.
      destruct (decide _) as [_|]; [reflexivity|done].
    + rewrite length_zip_with. lia.
Qed.

Lemma expose_sensor_image w a cam img cam' :
  expose lib w a cam = inr (img, cam') -> sensor_image lib w a cam img cam'.
Proof.
  unfold expose, sensor_image.
  destruct (dm_forward lib a w) as [|w1] eqn:E1; [discriminate|].
  destruct (pwfs_forward lib w1) as [|w2] eqn:E2; [discriminate|].
  destruct (integrate lib cam w2 (of_Z 1)) as [|c1] eqn:E3; [discriminate|].
  destruct (read_out lib c1) as [|[raw c2]] eqn:E4; [discriminate|].
  intros [= <- <-]. exists w1, w2, c1, raw. auto.
Qed.

(** C3, as the code has it.  The interaction matrix has one column per
    actuator.  For actuator [ind] the mirror is first set to
    [+probe_amp] on that actuator and zero on all others, then to
    [-probe_amp] likewise, with [probe_amp = 0.01 * wavelength_wfs]; the
    two normalised images [Ip] and [Im] are taken in that order, and the
    column is the sum the code accumulates,
    [(0 + 1 * (Ip - image_ref) / (2 * probe_amp))
         + (-1) * (Im - image_ref) / (2 * probe_amp)],
    each operation rounded as the arithmetic rounds it. *)
Theorem interaction_matrix_columns (s s' : State) :
  cell_interaction lib s = Returns tt s' ->
  probe_amp = fmul (lit 1 100) (wavelength_wfs (F:=F)) /\
  length (slopes (calibration s')) = num_modes lib /\
  forall ind, ind < num_modes lib ->
    (forall sgn j, j < num_modes lib ->
       probe_command lib ind sgn !! j
       = Some (if decide (j = ind) then fmul (of_Z sgn) probe_amp else of_Z 0)) /\
    exists cam Ip c1 Im c2 dp dm col,
      sensor_image lib (wf (calibration s')) (probe_command lib ind 1) cam Ip c1 /\
      sensor_image lib (wf (calibration s')) (probe_command lib ind (-1)) c1 Im c2 /\
      np_broadcast fsub Ip (image_ref (calibration s)) = inr dp /\
      np_broadcast fsub Im (image_ref (calibration s)) = inr dm /\
      np_inplace fadd
        (map (fadd (of_Z 0))
             (divide_by (scale (of_Z 1) dp) (fmul (of_Z 2) probe_amp)))
        (divide_by (scale (of_Z (-1)) dm) (fmul (of_Z 2) probe_amp)) = inr col /\
      slopes (calibration s') !! ind = Some (Arr col).
Proof.
  unfold cell_interaction. intros Hrun.
  apply bind_returns in Hrun as ([] & s0 & H0 & Hrun). injection H0 as <-.
  apply bind_returns in Hrun as (w & s1 & H1 & Hrun).
  apply call_returns in H1 as [_ ->].
  apply bind_returns in Hrun as ([] & s2 & H2 & Hrun). injection H2 as <-.
  apply bind_returns in Hrun as (w' & s3 & H3 & Hrun).
  apply call_returns in H3 as [_ ->].
  apply bind_returns in Hrun as ([] & s4 & H4 & Hrun). injection H4 as <-.
  unfold for_range in Hrun.
  apply probe_loop in Hrun as (Ew & Er & cols & Es & Ec & Hcols).
  cbn in Ew, Er, Es, Hcols.
  split; [reflexivity|]. split; [now rewrite Es|].
  intros ind Hind. split; [intros; now apply probe_command_lookup|].
  destruct (Hcols ind Hind) as (cam & Ip & Im & cam' & col & El & c1 & acc1 & I1 & A1 & I2 & A2).
  destruct (accumulate_twice A1 A2) as (dp & dm & v & Ep & Em & Ev & ->).
  exists cam, Ip, c1, Im, cam', dp, dm, v. rewrite Ew, Es. cbn.
  repeat (split; [assumption|]). exact El.
Qed.
End Probing.

(** ** The probe sum in exact arithmetic *)

Section ExactProbe.
Variables W Cam Rng IMat : Type.
Variable lib : Library Qc W Cam Rng IMat.

Abbreviation State := (Notebook Qc W Cam Rng).

Lemma exact_signed_sum (a b r c : Qc) :
  fadd (fadd (of_Z 0) (fdiv (fmul (of_Z 1) (fsub a r)) c))
       (fdiv (fmul (of_Z (-1)) (fsub b r)) c)
  = fdiv (fsub a b) c.
Proof.
  cbn. unfold Qcdiv.
  change (Q2Qc (inject_Z 0)) with 0%Qc.
  change (Q2Qc (inject_Z 1)) with 1%Qc.
  replace (Q2Qc (inject_Z (-1))) with (- (1))%Qc by (apply Qc_is_canon; reflexivity).
  ring.
Qed.

Lemma exact_column (Ip Im ref dp dm col : list Qc) (c : Qc) :
  length Ip = length ref -> length Im = length ref ->
  np_broadcast fsub Ip ref = inr dp ->
  np_broadcast fsub Im ref = inr dm ->
  np_inplace fadd (map (fadd (of_Z 0)) (divide_by (scale (of_Z 1) dp) c))
                  (divide_by (scale (of_Z (-1)) dm) c) = inr col ->
  col = divide_by (zip_with fsub Ip Im) c.
Proof.
  intros Lp Lm Ep Em Ec.
  apply np_broadcast_same_shape in Ep; [|assumption].
  apply np_broadcast_same_shape in Em; [|assumption]. subst dp dm.
  unfold np_inplace in Ec.
  destruct (decide _) as [_|Hne] in Ec.
  2:{ exfalso. apply Hne. unfold divide_by, scale.
      rewrite !length_map, !length_zip_with. lia. }
  injection Ec as <-. unfold divide_by, scale.
  revert Im ref Lp Lm. induction Ip as [|a Ip IH]; intros [|b Im] [|r ref] Lp Lm;
    cbn in *; try discriminate; [reflexivity|].
  f_equal; [apply exact_signed_sum|]. apply IH; lia.
Qed.

(** C8, as the code has it, in exact arithmetic.  With rational numbers in
    place of floats, and a detector of [npix] pixels, the column the
    probing loop appends for actuator [ind] is
    [(Ip - Im) / (2 * probe_amp)] for the two normalised probe images, and
    a second run that differs only in the reference image appends the
    same column: the reference cancels. *)
Theorem exact_slope_is_central_difference
        (npix ind : nat) (s1 s2 s1' : State) :
  (forall c raw c', read_out lib c = inr (raw, c') -> length raw = npix) ->
  length (image_ref (calibration s1)) = npix ->
  length (image_ref (calibration s2)) = npix ->
  devices s1 = devices s2 ->
  wf (calibration s1) = wf (calibration s2) ->
  slopes (calibration s1) = slopes (calibration s2) ->
  probe_mode lib ind s1 = Returns tt s1' ->
  exists Ip Im c1 c2 s2',
    sensor_image lib (wf (calibration s1)) (probe_command lib ind 1)
                 (camera (devices s1)) Ip c1 /\
    sensor_image lib (wf (calibration s1)) (probe_command lib ind (-1)) c1 Im c2 /\
    slopes (calibration s1')
    = slopes (calibration s1)
      ++ [Arr (divide_by (zip_with Qcminus Ip Im) (Qcmult (Q2Qc 2) probe_amp))] /\
    probe_mode lib ind s2 = Returns tt s2' /\
    slopes (calibration s2') = slopes (calibration s1').
Proof.
  intros Hpix L1 L2 Ed Ew Es Hrun.
  apply probe_mode_inv in Hrun
    as (Ip & Im & c2 & col & (c1 & acc1 & I1 & A1 & I2 & A2) & _ & S1 & _).
  pose proof (sensor_image_length Hpix I1) as Lp.
  pose proof (sensor_image_length Hpix I2) as Lm.
  destruct (accumulate_twice A1 A2) as (dp & dm & v & Ep & Em & Ev & ->).
  assert (v = divide_by (zip_with fsub Ip Im) (fmul (of_Z 2) probe_amp)) as ->
    by (eapply exact_column; [| |exact Ep|exact Em|exact Ev]; congruence).
  destruct (@accumulate_same_shape _ _ (Num (of_Z 0)) 1 Ip
              (image_ref (calibration s2))) as (v1 & B1 & Lv1); [congruence|exact I|].
  destruct (@accumulate_same_shape _ _ (Arr v1) (-1) Im
              (image_ref (calibration s2))) as (v2 & B2 & Lv2); [congruence|cbn; congruence|].
  destruct (@probe_mode_run _ _ W Cam Rng IMat lib ind s2 Ip Im c2 (Arr v2)) as (s2' & Hrun2).
  { exists c1, (Arr v1). rewrite <- Ed, <- Ew. auto. }
  exists Ip, Im, c1, c2, s2'. split; [assumption|]. split; [assumption|].
  split; [exact S1|]. split; [assumption|].
  apply probe_mode_inv in Hrun2
    as (Ip' & Im' & c2' & col' & (c1' & acc1' & I1' & A1' & I2' & A2') & _ & S2 & _).
  rewrite <- Ed, <- Ew in I1'. rewrite <- Ew in I2'.
  destruct (sensor_image_functional I1 I1') as [<- <-].
  destruct (sensor_image_functional I2 I2') as [<- <-].
  destruct (accumulate_twice A1' A2') as (dp' & dm' & v' & Ep' & Em' & Ev' & ->).
  assert (v' = divide_by (zip_with fsub Ip Im) (fmul (of_Z 2) probe_amp)) as ->
    by (eapply exact_column; [| |exact Ep'|exact Em'|exact Ev']; congruence).
  rewrite S2, S1, Es. reflexivity.
Qed.
End ExactProbe.

(** ** binary64 *)

Section Binary64.
Variables W Cam Rng IMat : Type.
Variable lib : Library float W Cam Rng IMat.

Abbreviation State := (Notebook float W Cam Rng).

Local Open Scope float_scope.

(** The literals of the notebook, as the floats Python parses them to. *)
Lemma binary64_literals :
  wavelength_wfs = 0x1.c40b994c7dee3p-21 /\
  leakage = 0x1.47ae147ae147bp-7 /\
  gain = 0.5 /\
  rcond = 0x1.0624dd2f1a9fcp-10 /\
  probe_amp = 0x1.214f1a6e65135p-27.
Proof. repeat split; reflexivity. Qed.

(** The two probe amplitudes, [1 * probe_amp] and [-1 * probe_amp], are
    [probe_amp] and its opposite: these products are exact. *)
Lemma binary64_probe_amplitudes :
  fmul (of_Z 1) probe_amp = probe_amp /\
  fmul (of_Z (-1)) probe_amp = PrimFloat.opp probe_amp /\
  fmul (of_Z 2) probe_amp = 0x1.214f1a6e65135p-26.
Proof. repeat split; reflexivity. Qed.

Lemma np_sum_zeros n : np_sum (replicate n 0) = 0.
Proof.
  unfold np_sum. cbn [of_Z B64.scalar B64.float_of_Z].
  induction n as [|n IH]; [reflexivity|].
  cbn [replicate fold_left fadd B64.scalar].
  replace (0 + 0) with 0 by reflexivity. exact IH.
Qed.

Lemma normalize_zeros n : normalize (replicate n 0) = replicate n nan.
Proof.
  unfold normalize. rewrite np_sum_zeros.
  induction n as [|n IH]; [reflexivity|].
  cbn [replicate map]. rewrite IH. f_equal.
Qed.

(** C9.  Neither normalisation guards its divisor.  The sum of an
    all-zero image is zero and dividing the image by it gives NaN in
    every pixel, without an exception.  So when the camera reads out the
    all-zero image, the reference cell ends with a reference image of
    NaNs; and when, in addition, the photon-noise draw of an all-zero
    image is all zero, an iteration that runs to its end leaves NaNs in
    [wfs_image]. *)
Theorem normalisation_unguarded (n : nat) :
  np_sum (replicate n 0) = 0 /\
  normalize (replicate n 0) = replicate n nan /\
  (forall s s' : State,
     (forall c raw c', read_out lib c = inr (raw, c') -> raw = replicate n 0) ->
     cell_reference lib s = Returns tt s' ->
     image_ref (calibration s') = replicate n nan) /\
  (forall s s' : State,
     (forall c raw c', read_out lib c = inr (raw, c') -> raw = replicate n 0) ->
     (forall g counts g',
        large_poisson lib g (replicate n 0) = inr (counts, g') ->
        counts = replicate n 0) ->
     closed_loop_iteration lib s = Returns tt s' ->
     wfs_image (loop s') = replicate n nan).
Proof.
  split; [apply np_sum_zeros|]. split; [apply normalize_zeros|]. split.
  - intros s s' Hdark Hrun.
    apply cell_reference_inv in Hrun as (w0 & w1 & w2 & c1 & raw & _ & _ & _ & _ & E & -> & _).
    apply Hdark in E. subst raw. apply normalize_zeros.
  - intros s s' Hdark Hnoise Hrun.
    apply iteration_inv in Hrun as (x & R & ->).
    destruct R as (_ & _ & _ & E4 & E5 & _). cbn.
    apply Hdark in E4. rewrite E4 in E5. apply Hnoise in E5. rewrite E5.
    apply normalize_zeros.
Qed.
End Binary64.

(** ** The bench in binary64 *)

Section BenchRuns.
Local Open Scope float_scope.
Local Set Warnings "-inexact-float".

Abbreviation engine := (Bench.bench (F:=float)).
Abbreviation State := (Notebook float (Bench.W (F:=float)) (Bench.Cam (F:=float))
                                 (Bench.Rng (F:=float))).

(** A run that returned, returned its final state. *)
Lemma returns_final {F W Cam Rng} (o : outcome (F:=F) W Cam Rng unit) :
  (match o with Returns _ _ => true | Raises _ _ => false end) = true ->
  o = Returns tt (final o).
Proof. destruct o as [[] s|e s]; [reflexivity|discriminate]. Qed.

(** Two lists of floats with different bits are different. *)
Ltac floats_differ :=
  let E := fresh "E" in
  intros E; apply (f_equal (map Prim2SF)) in E; vm_compute in E; discriminate E.

(** C3 fails in binary64.  On the bench the column computed for actuator
    0 is [1875831.1854878673; -1875831.1854878706], while the difference
    of the two normalised probe images divided by [2 * probe_amp] is
    [1875831.1854878671; -1875831.1854878704]. *)
Lemma bench_column_is_not_central_difference :
  exists (s' : State) col Ip Im,
    cell_interaction engine Bench.referenced = Returns tt s' /\
    slopes (calibration s') !! 0%nat = Some (Arr col) /\
    sensor_image engine (wf (calibration s')) (probe_command engine 0 1)
                 (0, 0) Ip (0, 0) /\
    sensor_image engine (wf (calibration s')) (probe_command engine 0 (-1))
                 (0, 0) Im (0, 0) /\
    col = [1875831.1854878673; -1875831.1854878706] /\
    divide_by (zip_with fsub Ip Im) (fmul (of_Z 2) probe_amp)
    = [1875831.1854878671; -1875831.1854878704] /\
    col <> divide_by (zip_with fsub Ip Im) (fmul (of_Z 2) probe_amp).
Proof.
  exists (final (cell_interaction engine Bench.referenced)),
         [1875831.1854878673; -1875831.1854878706],
         [0.26546202438666078; 0.73453797561333922],
         [0.23387302722304509; 0.76612697277695496].
  split; [apply returns_final; vm_compute; reflexivity|].
  split; [vm_compute; reflexivity|].
  split; [apply expose_sensor_image; vm_compute; reflexivity|].
  split; [apply expose_sensor_image; vm_compute; reflexivity|].
  split; [reflexivity|].
  split; [vm_compute; reflexivity|].
  floats_differ.
Qed.

(** C8 fails in binary64.  On the bench, probing actuator 0 against the
    reference image [0.25; 0.75] gives the column
    [1875831.1854878673; -1875831.1854878706]; against the reference
    image [0.5; 0.5], with everything else the same, it gives
    [1875831.1854878664; -1875831.1854878701]. *)
Lemma bench_column_depends_on_reference :
  exists s1' s2' : State,
    image_ref (calibration Bench.referenced) = [0.25; 0.75] /\
    probe_mode engine 0 Bench.referenced = Returns tt s1' /\
    probe_mode engine 0 (put_image_ref [0.5; 0.5] Bench.referenced) = Returns tt s2' /\
    slopes (calibration s1') = [Arr [1875831.1854878673; -1875831.1854878706]] /\
    slopes (calibration s2') = [Arr [1875831.1854878664; -1875831.1854878701]] /\
    slopes (calibration s1') <> slopes (calibration s2').
Proof.
  exists (final (probe_mode engine 0 Bench.referenced)),
         (final (probe_mode engine 0 (put_image_ref [0.5; 0.5] Bench.referenced))).
  split; [vm_compute; reflexivity|].
  split; [apply returns_final; vm_compute; reflexivity|].
  split; [apply returns_final; vm_compute; reflexivity|].
  split; [vm_compute; reflexivity|].
  split; [vm_compute; reflexivity|].
  intros E.
  apply (f_equal (fun l => match l with
                           | [Arr v] => map Prim2SF v
                           | _ => []
                           end)) in E.
  vm_compute in E. discriminate E.
Qed.

(** C7 fails on the mirror.  Two kernels that agree on every variable of
    the script, on the camera, on the generator and on the log, and
    differ only in the commands held inside the mirror object (left there
    by [deformable_mirror.random] with different draws), make different
    iterations: the object carries state into the loop. *)
Lemma mirror_carries_state_into_the_loop :
  let s1 : State := Bench.ready [[1; 2]] in
  let s2 : State := Bench.ready [[2; 1]] in
  calibration s1 = calibration s2 /\ probe s1 = probe s2 /\ loop s1 = loop s2 /\
  trace s1 = trace s2 /\
  camera (devices s1) = camera (devices s2) /\ rng (devices s1) = rng (devices s2) /\
  exists s1' s2',
    closed_loop_iteration engine s1 = Returns tt s1' /\
    closed_loop_iteration engine s2 = Returns tt s2' /\
    wfs_image (loop s1') = [0.18617343844754397; 0.81382656155245603] /\
    wfs_image (loop s2') = [0.32691839220462848; 0.67308160779537152] /\
    wfs_image (loop s1') <> wfs_image (loop s2') /\
    dm_actuators (devices s1') <> dm_actuators (devices s2').
Proof.
  intros s1 s2.
  repeat (split; [vm_compute; reflexivity|]).
  exists (final (closed_loop_iteration engine s1)),
         (final (closed_loop_iteration engine s2)).
  split; [apply returns_final; vm_compute; reflexivity|].
  split; [apply returns_final; vm_compute; reflexivity|].
  split; [vm_compute; reflexivity|].
  split; [vm_compute; reflexivity|].
  split; floats_differ.
Qed.

(** With the shutter closed the notebook still runs to its end, without
    an exception, and hands the mirror commands that are not numbers. *)
Lemma dark_notebook_ends_in_nan :
  exists s' : State,
    notebook Bench.dark (Bench.fresh []) = Returns tt s' /\
    image_ref (calibration s') = [nan; nan] /\
    dm_actuators (devices s') = [nan; nan].
Proof.
  exists (final (notebook Bench.dark (Bench.fresh []))).
  split; [apply returns_final; vm_compute; reflexivity|].
  split; vm_compute; reflexivity.
Qed.

(** Two draws of photon noise, two different updates. *)
Lemma bench_noise_changes_the_update :
  let s : State := Bench.ready [[1; 2]] in
  exists s1 s2,
    closed_loop_iteration engine (put_rng [[2; 3]] s) = Returns tt s1 /\
    closed_loop_iteration engine (put_rng [[1; 4]] s) = Returns tt s2 /\
    dm_actuators (devices s1) <> dm_actuators (devices s2).
Proof.
  intros s.
  exists (final (closed_loop_iteration engine (put_rng [[2; 3]] s))),
         (final (closed_loop_iteration engine (put_rng [[1; 4]] s))).
  split; [apply returns_final; vm_compute; reflexivity|].
  split; [apply returns_final; vm_compute; reflexivity|].
  floats_differ.
Qed.
End BenchRuns.

(** ** Randomness *)

(** C10.  Calibration never draws a random number: started twice from
    the same state, even with the generator in two different states, it
    computes the same reference image, the same interaction matrix and
    the same reconstruction matrix, performs the same operations, none of
    them a photon-noise or a random-shape draw, and leaves each generator
    as it was.  Every closed-loop iteration, in contrast, draws photon
    noise from the generator, and on the bench two generator states give
    two different actuator updates from otherwise equal states. *)
Theorem calibration_is_deterministic_and_the_loop_is_noisy :
  (forall (F : Type) (HF : Scalar F) (W Cam Rng IMat : Type)
          (lib : Library F W Cam Rng IMat) (s s1 s2 : Notebook F W Cam Rng)
          (g1 g2 : Rng),
     calibrate lib (put_rng g1 s) = Returns tt s1 ->
     calibrate lib (put_rng g2 s) = Returns tt s2 ->
     image_ref (calibration s1) = image_ref (calibration s2) /\
     slopes (calibration s1) = slopes (calibration s2) /\
     reconstruction_matrix (calibration s1) = reconstruction_matrix (calibration s2) /\
     rng (devices s1) = g1 /\ rng (devices s2) = g2 /\
     exists t,
       trace s1 = trace s ++ t /\ trace s2 = trace s ++ t /\
       ~ In K_large_poisson (kinds t) /\ ~ In K_dm_random (kinds t)) /\
  (forall (F : Type) (HF : Scalar F) (W Cam Rng IMat : Type)
          (lib : Library F W Cam Rng IMat) (s s' : Notebook F W Cam Rng),
     closed_loop_iteration lib s = Returns tt s' ->
     exists raw counts,
       large_poisson lib (rng (devices s)) raw = inr (counts, rng (devices s')) /\
       wfs_image (loop s') = normalize counts /\
       In (op_large_poisson, None) (trace s')) /\
  (exists (s : Notebook float Bench.W Bench.Cam Bench.Rng) g1 g2 s1 s2,
     closed_loop_iteration Bench.bench (put_rng g1 s) = Returns tt s1 /\
     closed_loop_iteration Bench.bench (put_rng g2 s) = Returns tt s2 /\
     dm_actuators (devices s1) <> dm_actuators (devices s2)).
Proof.
  split; [|split].
  - intros F HF W Cam Rng IMat lib s s1 s2 g1 g2 H1 H2.
    rewrite calibrate_rng_blind in H1, H2.
    destruct (calibrate lib s) as [[] s0|e s0] eqn:E; [|discriminate].
    cbn in H1, H2. injection H1 as <-. injection H2 as <-. cbn.
    repeat (split; [reflexivity|]).
    destruct (follows_returns (calibrate_plan lib) E) as (t & Et & K & _).
    exists t. rewrite K. split; [assumption|]. split; [assumption|].
    unfold plan_calibration, plan_interaction.
    split; rewrite ?in_app_iff; intros Hin;
      repeat match goal with
             | Hx : _ \/ _ |- _ => destruct Hx
             | Hx : In _ (concat (replicate _ _)) |- _ =>
                 apply in_concat_replicate in Hx
             end;
      cbn in *; intuition discriminate.
  - intros F HF W Cam Rng IMat lib s s' Hrun.
    apply iteration_inv in Hrun as (x & R & ->).
    destruct R as (_ & _ & _ & _ & E5 & _).
    exists (it_raw x), (it_counts x). cbn. split; [assumption|].
    split; [reflexivity|]. apply in_app_iff. right. cbn. tauto.
  - destruct bench_noise_changes_the_update as (s1 & s2 & H1 & H2 & Hne).
    exists (Bench.ready [[1; 2]]%float), [[2; 3]]%float, [[1; 4]]%float, s1, s2.
    split; [exact H1|]. split; [exact H2|exact Hne].
Qed.

(** ** The theorems at work on the bench *)

Section Witnesses.
Local Open Scope float_scope.

Abbreviation engine := (Bench.bench (F:=float)).
Abbreviation State := (Notebook float (Bench.W (F:=float)) (Bench.Cam (F:=float))
                                 (Bench.Rng (F:=float))).


Lemma iteration_order_witness :
  let s : State := Bench.ready [[1; 2]; [2; 3]] in
  let s' : State := final (closed_loop_iteration engine s) in
  closed_loop_iteration engine s = Returns tt s' /\
  exists c1 raw counts y,
    dm_forward engine (dm_actuators (devices s)) (wf_wfs (calibration s))
      = inr (wf_dm (loop s')) /\
    pwfs_forward engine (wf_dm (loop s')) = inr (wf_pyr (loop s')) /\
    integrate engine (camera (devices s)) (wf_pyr (loop s')) (of_Z 1) = inr c1 /\
    read_out engine c1 = inr (raw, camera (devices s')) /\
    large_poisson engine (rng (devices s)) raw = inr (counts, rng (devices s')) /\
    wfs_image (loop s') = map (fun v => fdiv v (np_sum counts)) counts /\
    np_broadcast fsub (wfs_image (loop s')) (image_ref (calibration s))
      = inr (diff_image (loop s')) /\
    np_dot (reconstruction_matrix (calibration s)) (diff_image (loop s')) = inr y /\
    np_broadcast fsub (scale (fsub (of_Z 1) leakage) (dm_actuators (devices s)))
                 (scale gain y)
      = inr (dm_actuators (devices s')) /\
    trace s' = trace s ++
      [ (op_dm_forward, None); (op_pwfs_forward, None);
        (op_camera_integrate (of_Z 1), None); (op_camera_read_out, None);
        (op_large_poisson, None); (op_subtract, None); (op_dot, None);
        (op_subtract, None);
        (op_dm_set_actuators (dm_actuators (devices s')), None) ].
Proof.
  intros s s'.
  assert (Hrun : closed_loop_iteration engine s = Returns tt s')
    by (apply (@returns_final float); vm_compute; reflexivity).
  split; [exact Hrun|exact (iteration_order Hrun)].
Defined.

Lemma interaction_matrix_columns_witness :
  let s : State := Bench.referenced in
  let s' : State := final (cell_interaction engine s) in
  cell_interaction engine s = Returns tt s' /\
  length (slopes (calibration s')) = num_modes engine.
Proof.
  intros s s'.
  assert (Hrun : cell_interaction engine s = Returns tt s')
    by (apply (@returns_final float); vm_compute; reflexivity).
  split; [exact Hrun|exact (proj1 (proj2 (interaction_matrix_columns Hrun)))].
Defined.


Lemma closed_loop_ten_iterations_witness :
  let s : State := Bench.ready [[1; 2]; [2; 3]] in
  let s' : State := final (closed_loop engine s) in
  closed_loop engine s = Returns tt s' /\
  steps (iterates engine) 10 s s' /\
  exists t, trace s' = trace s ++ t /\
            kinds t = concat (replicate 10 plan_iteration).
Proof.
  intros s s'.
  assert (Hrun : closed_loop engine s = Returns tt s')
    by (apply (@returns_final float); vm_compute; reflexivity).
  split; [exact Hrun|exact (proj1 (closed_loop_ten_iterations engine s) s' Hrun)].
Defined.

Lemma errors_propagate_witness :
  let s : State := Bench.fresh [] in
  new_wavefront Bench.broken (wavelength_wfs (F:=float)) = inl (EngineError 1) /\
  notebook Bench.broken s
  = Raises (EngineError 1) (log (op_new_wavefront, Some (EngineError 1)) s).
Proof.
  intros s.
  assert (Hfail : new_wavefront Bench.broken (wavelength_wfs (F:=float))
                  = inl (EngineError 1)) by reflexivity.
  split; [exact Hfail|].
  exact (proj1 (proj2 (errors_propagate Bench.broken s)) (EngineError 1) Hfail).
Defined.

Lemma iteration_reads_objects_witness :
  let s1 : State := Bench.ready [[1; 2]; [2; 3]] in
  let s2 : State :=
    with_loop {| wf_dm := [7]; wf_pyr := []; wfs_image := [1; 1; 1];
                 diff_image := [5] |} s1 in
  let s1' : State := final (closed_loop_iteration engine s1) in
  (devices s1 = devices s2 /\ calibration s1 = calibration s2 /\
   closed_loop_iteration engine s1 = Returns tt s1') /\
  exists s2',
    closed_loop_iteration engine s2 = Returns tt s2' /\
    devices s2' = devices s1' /\ loop s2' = loop s1' /\
    calibration s2' = calibration s1' /\
    exists x,
      iteration_runs engine s1 x /\
      devices s1' = {| dm_actuators := it_a x; camera := it_c2 x; rng := it_g x |}.
Proof.
  intros s1 s2 s1'.
  assert (Hd : devices s1 = devices s2) by (vm_compute; reflexivity).
  assert (Hc : calibration s1 = calibration s2) by (vm_compute; reflexivity).
  assert (Hrun : closed_loop_iteration engine s1 = Returns tt s1')
    by (apply (@returns_final float); vm_compute; reflexivity).
  split; [auto|exact (iteration_reads_objects Hd Hc Hrun)].
Defined.

Lemma exact_slope_is_central_difference_witness :
  let lib := Bench.bench (F:=Qc) in
  let s1 : Notebook Qc Bench.W Bench.Cam Bench.Rng := Bench.referenced in
  let s2 := put_image_ref [Q2Qc (1 # 2); Q2Qc (1 # 2)] s1 in
  let s1' := final (probe_mode lib 0 s1) in
  probe_mode lib 0 s1 = Returns tt s1' /\
  exists Ip Im c1 c2 s2',
    sensor_image lib (wf (calibration s1)) (probe_command lib 0 1)
                 (camera (devices s1)) Ip c1 /\
    sensor_image lib (wf (calibration s1)) (probe_command lib 0 (-1)) c1 Im c2 /\
    slopes (calibration s1')
    = slopes (calibration s1)
      ++ [Arr (divide_by (zip_with Qcminus Ip Im) (Qcmult (Q2Qc 2) probe_amp))] /\
    probe_mode lib 0 s2 = Returns tt s2' /\
    slopes (calibration s2') = slopes (calibration s1').
Proof.
  intros lib s1 s2 s1'.
  assert (Hpix : forall c raw c', read_out lib c = inr (raw, c') -> length raw = 2%nat)
    by (intros c raw c' [= <- _]; reflexivity).
  assert (L1 : length (image_ref (calibration s1)) = 2%nat) by (vm_compute; reflexivity).
  assert (L2 : length (image_ref (calibration s2)) = 2%nat)
    by (vm_compute; reflexivity).
  assert (Hd : devices s1 = devices s2) by (vm_compute; reflexivity).
  assert (Hw : wf (calibration s1) = wf (calibration s2)) by (vm_compute; reflexivity).
  assert (Hs : slopes (calibration s1) = slopes (calibration s2))
    by (vm_compute; reflexivity).
  assert (Hrun : probe_mode lib 0 s1 = Returns tt s1')
    by (apply (@returns_final Qc); vm_compute; reflexivity).
  split; [exact Hrun|].
  exact (exact_slope_is_central_difference Hpix L1 L2 Hd Hw Hs Hrun).
Defined.

Lemma normalisation_unguarded_witness :
  let s : State := Bench.fresh [] in
  let s' : State := final (cell_reference Bench.dark s) in
  ((forall c raw c', read_out (Bench.dark (F:=float)) c = inr (raw, c') ->
                     raw = replicate 2 0) /\
   cell_reference Bench.dark s = Returns tt s') /\
  image_ref (calibration s') = replicate 2 nan.
Proof.
  intros s s'.
  assert (Hdark : forall c raw c', read_out (Bench.dark (F:=float)) c = inr (raw, c') ->
                                   raw = replicate 2 0)
    by (intros c raw c' [= <- _]; reflexivity).
  assert (Hrun : cell_reference Bench.dark s = Returns tt s')
    by (apply (@returns_final float); vm_compute; reflexivity).
  split; [auto|].
  exact (proj1 (proj2 (proj2 (normalisation_unguarded Bench.dark 2))) s s' Hdark Hrun).
Defined.

Lemma calibration_is_deterministic_and_the_loop_is_noisy_witness :
  let s : State := Bench.fresh [] in
  let g1 : Bench.Rng := [[1; 2]] in
  let g2 : Bench.Rng := [[2; 1]] in
  let s1 : State := final (calibrate engine (put_rng g1 s)) in
  let s2 : State := final (calibrate engine (put_rng g2 s)) in
  (calibrate engine (put_rng g1 s) = Returns tt s1 /\
   calibrate engine (put_rng g2 s) = Returns tt s2) /\
  image_ref (calibration s1) = image_ref (calibration s2) /\
  slopes (calibration s1) = slopes (calibration s2).
Proof.
  intros s g1 g2 s1 s2.
  assert (H1 : calibrate engine (put_rng g1 s) = Returns tt s1)
    by (apply (@returns_final float); vm_compute; reflexivity).
  assert (H2 : calibrate engine (put_rng g2 s) = Returns tt s2)
    by (apply (@returns_final float); vm_compute; reflexivity).
  split; [auto|].
  pose proof (proj1 calibration_is_deterministic_and_the_loop_is_noisy
                _ _ _ _ _ _ engine s s1 s2 g1 g2 H1 H2) as (Ei & Es & _).
  auto.
Defined.
End Witnesses.

(** ** Normalised images in exact arithmetic *)

Section ExactImages.
Local Open Scope Qc_scope.

Lemma exact_zero : of_Z 0 = 0 :> Qc.
Proof. reflexivity. Qed.

Lemma exact_one : of_Z 1 = 1 :> Qc.
Proof. reflexivity. Qed.

Lemma fold_add_shift (v : list Qc) (a : Qc) : fold_left Qcplus v a = a + fold_left Qcplus v 0.
Proof.
  revert a. induction v as [|x v IH]; intros a; cbn.
  - ring.
  - rewrite IH, (IH (0 + x)). ring.
Qed.

Lemma np_sum_cons (x : Qc) (v : list Qc) : np_sum (x :: v) = x + np_sum v.
Proof.
  unfold np_sum. cbn. change (Q2Qc (inject_Z 0)) with 0.
  rewrite fold_add_shift. ring.
Qed.

Lemma np_sum_nil : np_sum (@nil Qc) = 0.
Proof. reflexivity. Qed.

Lemma np_sum_scale (c : Qc) (v : list Qc) : np_sum (scale c v) = c * np_sum v.
Proof.
  unfold scale. induction v as [|x v IH]; cbn [map].
  - rewrite np_sum_nil. ring.
  - rewrite !np_sum_cons, IH. cbn. ring.
Qed.

Lemma np_sum_divide_by (v : list Qc) (c : Qc) : np_sum (divide_by v c) = np_sum v / c.
Proof.
  unfold divide_by. induction v as [|x v IH]; cbn [map].
  - rewrite np_sum_nil. unfold Qcdiv. ring.
  - rewrite !np_sum_cons, IH. cbn. unfold Qcdiv. ring.
Qed.

Lemma np_sum_zip_sub (u v : list Qc) :
  length u = length v -> np_sum (zip_with Qcminus u v) = np_sum u - np_sum v.
Proof.
  revert v. induction u as [|a u IH]; intros [|b v] L; cbn in L; try discriminate.
  - cbn. rewrite np_sum_nil. ring.
  - cbn [zip_with]. rewrite !np_sum_cons, IH by lia. ring.
Qed.

Lemma normalize_divide (v : list Qc) : normalize v = divide_by v (np_sum v).
Proof. reflexivity. Qed.

(** X1.  Normalisation forgets the flux: an image with a non-zero sum,
    multiplied by any non-zero factor (a brighter star, a longer
    exposure), normalises to the same image. *)
Theorem normalize_scale_invariant (c : Qc) (v : list Qc) :
  c <> 0 -> np_sum v <> 0 -> normalize (scale c v) = normalize v.
Proof.
  intros Hc Hs. unfold normalize. rewrite np_sum_scale.
  unfold scale. rewrite map_map. apply map_ext. intros x. cbn.
  field. auto.
Qed.

(** X2.  A normalised image has as many pixels as the image it came from
    and, when the image's sum is not zero, sums to one. *)
Theorem normalized_sums_to_one (v : list Qc) :
  length (normalize v) = length v /\
  (np_sum v <> 0 -> np_sum (normalize v) = 1).
Proof.
  split.
  - unfold normalize. apply length_map.
  - intros Hs. rewrite normalize_divide, np_sum_divide_by. field. exact Hs.
Qed.
End ExactImages.

(** ** The loop in exact arithmetic *)

Section ExactLoop.
Variables W Cam Rng IMat : Type.
Variable lib : Library Qc W Cam Rng IMat.
Local Open Scope Qc_scope.

Abbreviation State := (Notebook Qc W Cam Rng).

Lemma np_sum_normalize_nonzero (v : list Qc) :
  np_sum (normalize v) <> 0 -> np_sum (normalize v) = 1.
Proof.
  intros Hn. apply normalized_sums_to_one. intros E. apply Hn.
  rewrite normalize_divide, np_sum_divide_by, E. unfold Qcdiv. ring.
Qed.

(** X3.  The difference image has no net flux: when the reference image
    is a normalised image with a non-zero sum, the sensor image has the
    same number of pixels and a non-zero sum, the pixels of [diff_image]
    add up to zero. *)
Theorem diff_image_sums_to_zero (s s' : State) (raw : list Qc) :
  closed_loop_iteration lib s = Returns tt s' ->
  image_ref (calibration s) = normalize raw ->
  np_sum raw <> 0 ->
  length (wfs_image (loop s')) = length raw ->
  np_sum (wfs_image (loop s')) <> 0 ->
  np_sum (diff_image (loop s')) = 0.
Proof.
  intros Hrun Eref Hraw Hlen Hsum.
  apply iteration_inv in Hrun as (x & R & ->).
  destruct R as (_ & _ & _ & _ & _ & Ed & _). cbn in *.
  rewrite Eref in Ed.
  apply np_broadcast_same_shape in Ed.
  2:{ rewrite Hlen. symmetry. apply normalized_sums_to_one. }
  rewrite Ed. change (@fsub Qc _) with Qcminus.
  rewrite np_sum_zip_sub.
  2:{ rewrite Hlen. symmetry. apply normalized_sums_to_one. }
  rewrite (np_sum_normalize_nonzero Hsum).
  rewrite (proj2 (normalized_sums_to_one raw) Hraw). ring.
Qed.

Lemma dot_of_zero_difference (row v : list Qc) :
  np_sum (zip_with Qcmult row (zip_with Qcminus v v)) = 0.
Proof.
  revert v. induction row as [|r row IH]; intros [|x v]; cbn [zip_with];
    try apply np_sum_nil.
  rewrite np_sum_cons, IH. ring.
Qed.

(** X4.  The integrator leaks.  When the sensor image equals the
    reference image, so that there is nothing to correct, and the
    reconstruction matrix has one row per actuator, an iteration
    multiplies every actuator command by [1 - leakage = 99/100]. *)
Theorem commands_leak_without_signal (s s' : State) :
  closed_loop_iteration lib s = Returns tt s' ->
  wfs_image (loop s') = image_ref (calibration s) ->
  length (dm_actuators (devices s)) = length (reconstruction_matrix (calibration s)) ->
  dm_actuators (devices s') = scale (Q2Qc (99 # 100)) (dm_actuators (devices s)).
Proof.
  intros Hrun Esame Hrows.
  apply iteration_inv in Hrun as (x & R & ->).
  destruct R as (_ & _ & _ & _ & _ & Ed & Ey & Ea). cbn in *.
  rewrite Esame in Ed. apply np_broadcast_same_shape in Ed; [|reflexivity].
  unfold np_dot in Ey. destruct (forallb _ _); [|discriminate].
  injection Ey as Ey.
  apply np_broadcast_same_shape in Ea.
  2:{ unfold scale. rewrite !length_map, <- Ey, length_map. exact Hrows. }
  rewrite Ea, <- Ey, Ed. unfold scale.
  change (@fsub Qc _) with Qcminus. change (@fmul Qc _) with Qcmult.
  generalize (reconstruction_matrix (calibration s)) Hrows.
  generalize (dm_actuators (devices s)).
  induction l as [|a l IH]; intros [|row m] L; cbn in L; try discriminate;
    [reflexivity|].
  cbn [map zip_with]. rewrite dot_of_zero_difference. f_equal.
  - unfold leakage, gain, lit. cbn.
    replace (Q2Qc (inject_Z 1) - Q2Qc (inject_Z 1) / Q2Qc (inject_Z 100))
      with (Q2Qc (99 # 100)) by (apply Qc_is_canon; reflexivity).
    ring.
  - apply IH. lia.
Qed.
End ExactLoop.

(** ** More about runs *)

Section MoreRuns.
Context {F : Type} `{Scalar F}.
Variables W Cam Rng IMat : Type.
Variable lib : Library F W Cam Rng IMat.

Abbreviation State := (Notebook F W Cam Rng).





End MoreRuns.

(** ** What the cells leave behind *)

Section BetweenCells.
Context {F : Type} `{Scalar F}.
Variables W Cam Rng IMat : Type.
Variable lib : Library F W Cam Rng IMat.

Abbreviation State := (Notebook F W Cam Rng).

Lemma cell_reference_mirror s s' :
  cell_reference lib s = Returns tt s' ->
  dm_actuators (devices s') = dm_actuators (devices s) /\
  rng (devices s') = rng (devices s).
Proof.
  unfold cell_reference, camera_integrate, camera_read_out.
  intros Hrun. run_calls Hrun.
  repeat match goal with p : (_ * _)%type |- _ => destruct p end.
  cbn in *. injection Hrun as <-. split; reflexivity.
Qed.

Lemma probe_loop_mirror n : forall start s s',
  for_each (seq start n) (probe_mode lib) s = Returns tt s' ->
  rng (devices s') = rng (devices s) /\
  dm_actuators (devices s')
  = match n with
    | O => dm_actuators (devices s)
    | S m => probe_command lib (start + m) (-1)
    end.
Proof.
  induction n as [|n IH]; intros start s s'; cbn [seq for_each].
  - intros [= <-]. split; reflexivity.
  - intros Hrun. apply bind_returns in Hrun as ([] & s1 & H1 & Hrun).
    apply probe_mode_inv in H1 as (Ip & Im & cam' & col & _ & D1 & _).
    apply IH in Hrun as [R2 A2]. rewrite D1 in R2, A2. cbn in R2, A2.
    split; [assumption|]. rewrite A2. destruct n as [|m].
    + now rewrite Nat.add_0_r.
    + now replace (start + S m) with (S start + m) by lia.
Qed.

(** X7.  Calibration never puts the mirror back.  After the three
    calibration cells the mirror holds the last command of the probing
    loop, zero everywhere except [-probe_amp] on the last actuator (and
    what it held before when there is no actuator); the random generator
    has not moved. *)
Theorem calibration_leaves_last_probe (s s' : State) :
  calibrate lib s = Returns tt s' ->
  rng (devices s') = rng (devices s) /\
  match num_modes lib with
  | O => dm_actuators (devices s') = dm_actuators (devices s)
  | S n =>
      dm_actuators (devices s') = probe_command lib n (-1) /\
      dm_actuators (devices s') !! n = Some (fmul (of_Z (-1)) probe_amp) /\
      forall j, j < n -> dm_actuators (devices s') !! j = Some (of_Z 0)
  end.
Proof.
  unfold calibrate. intros Hrun.
  apply bind_returns in Hrun as ([] & s1 & H1 & Hrun).
  apply bind_returns in Hrun as ([] & s2 & H2 & H3).
  apply cell_reference_mirror in H1 as [A1 R1].
  apply cell_reconstruction_inv in H3 as (m & r & _ & _ & ->). cbn.
  unfold cell_interaction in H2.
  apply bind_returns in H2 as ([] & s0 & H0 & H2). injection H0 as <-.
  apply bind_returns in H2 as (w & sa & Ha & H2).
  apply call_returns in Ha as [_ ->].
  apply bind_returns in H2 as ([] & sb & Hb & H2). injection Hb as <-.
  apply bind_returns in H2 as (w' & sc & Hc & H2).
  apply call_returns in Hc as [_ ->].
  apply bind_returns in H2 as ([] & sd & Hd & H2). injection Hd as <-.
  unfold for_range in H2. apply probe_loop_mirror in H2 as [R2 A2].
  assert (R2' : rng (devices s2) = rng (devices s1)) by exact R2.
  assert (A2' : dm_actuators (devices s2)
                = match num_modes lib with
                  | O => dm_actuators (devices s1)
                  | S m => probe_command lib m (-1)
                  end) by exact A2.
  clear R2 A2. split; [congruence|].
  destruct (num_modes lib) as [|n] eqn:En.
  - congruence.
  - split; [exact A2'|]. rewrite A2'. split.
    + rewrite probe_command_lookup by lia.
      destruct (decide (n = n)); [reflexivity|done].
    + intros j Hj. rewrite probe_command_lookup by lia.
      destruct (decide (j = n)); [lia|reflexivity].
Qed.

Lemma camera_protocol_app a : forall x y b,
  camera_protocol x a = Some y ->
  camera_protocol x (a ++ b) = camera_protocol y b.
Proof.
  induction a as [|k a IH]; intros x y b; cbn [camera_protocol app].
  - now intros [= ->].
  - destruct k, x; try discriminate; apply IH.
Qed.

Lemma camera_protocol_prefix p : forall x l y,
  camera_protocol x l = Some y -> p `prefix_of` l ->
  exists z, camera_protocol x p = Some z.
Proof.
  induction p as [|k p IH]; intros x l y Hl [q ->]; cbn [camera_protocol].
  - eauto.
  - cbn [app camera_protocol] in Hl.
    destruct k, x; try discriminate; eapply IH; eauto; now exists q.
Qed.

Lemma camera_protocol_replicate p n :
  camera_protocol false p = Some false ->
  camera_protocol false (concat (replicate n p)) = Some false.
Proof.
  intros Hp. induction n as [|n IH]; [reflexivity|].
  cbn [replicate concat]. now rewrite (camera_protocol_app _ Hp).
Qed.

Lemma exposures_replicate p n :
  count_occ Kind_eq_dec (concat (replicate n p)) K_camera_integrate
  = n * count_occ Kind_eq_dec p K_camera_integrate.
Proof.
  induction n as [|n IH]; [reflexivity|].
  cbn [replicate concat]. rewrite count_occ_app, IH. lia.
Qed.

Lemma plan_notebook_protocol :
  camera_protocol false (plan_notebook lib) = Some false.
Proof.
  unfold plan_notebook, plan_calibration, plan_interaction, plan_closed_loop.
  rewrite <- !app_assoc.
  rewrite (@camera_protocol_app plan_reference false false) by reflexivity.
  rewrite (@camera_protocol_app plan_new_wavefront false false) by reflexivity.
  rewrite (@camera_protocol_app (concat _) false false)
    by (apply camera_protocol_replicate; reflexivity).
  rewrite (@camera_protocol_app plan_reconstruction false false) by reflexivity.
  rewrite (@camera_protocol_app plan_wavefront false false) by reflexivity.
  rewrite (@camera_protocol_app (concat _) false false)
    by (apply camera_protocol_replicate; reflexivity).
  apply camera_protocol_replicate. reflexivity.
Qed.

Lemma plan_notebook_exposures :
  count_occ Kind_eq_dec (plan_notebook lib) K_camera_integrate
  = 21 + 2 * num_modes lib.
Proof.
  unfold plan_notebook, plan_calibration, plan_interaction, plan_closed_loop.
  rewrite !count_occ_app, !exposures_replicate. cbn. lia.
Qed.

(** X8.  The notebook never exposes the camera twice without reading it,
    and never reads it without an exposure: in every run, complete or
    stopped by an exception, each [camera.integrate] is followed directly
    by [camera.read_out].  A complete run makes [21 + 2 * num_modes]
    exposures and leaves no exposure unread. *)
Theorem every_exposure_is_read (s : State) :
  exists t,
    trace (final (notebook lib s)) = trace s ++ t /\
    (exists pending, camera_protocol false (kinds t) = Some pending) /\
    (forall s', notebook lib s = Returns tt s' ->
       camera_protocol false (kinds t) = Some false /\
       count_occ Kind_eq_dec (kinds t) K_camera_integrate = 21 + 2 * num_modes lib).
Proof.
  destruct (notebook_plan lib s) as (t & Et & Hp). exists t. split; [assumption|].
  destruct (notebook lib s) as [[] s1|e s1].
  - destruct Hp as [Hk _]. rewrite Hk. split.
    + exists false. apply plan_notebook_protocol.
    + intros _ _. split; [apply plan_notebook_protocol|apply plan_notebook_exposures].
  - destruct Hp as [_ Hpre]. split; [|discriminate].
    eapply camera_protocol_prefix; [apply plan_notebook_protocol|exact Hpre].
Qed.

End BetweenCells.

(** ** The diagnostics in exact arithmetic *)

Section ExactDiagnostics.
Local Open Scope Qc_scope.

Lemma exact_lt (x y : Qc) : fltb x y = true <-> x < y.
Proof.
  cbn. rewrite negb_true_iff. unfold Qclt. split.
  - intros E. apply Qnot_le_lt. intros L. apply Qle_bool_iff in L. congruence.
  - intros L. destruct (Qle_bool y x) eqn:E; [|reflexivity].
    apply Qle_bool_iff in E. exfalso. exact (Qlt_not_le _ _ L E).
Qed.

Lemma exact_eq_refl (x : Qc) : feqb x x = true.
Proof. cbn. apply Qeq_bool_iff. reflexivity. Qed.

Lemma of_Z_succ (z : Z) : of_Z (z + 1) = of_Z z + 1 :> Qc.
Proof.
  cbn. apply Qc_is_canon. cbn. rewrite !Qred_correct, inject_Z_plus. reflexivity.
Qed.

Lemma of_nat_nonzero (n : nat) : of_Z (Z.of_nat (S n)) <> 0 :> Qc.
Proof.
  cbn. intros E. apply (f_equal this) in E. cbn in E.
  assert (Q : (inject_Z (Z.of_nat (S n)) == 0)%Q).
  { rewrite <- (Qred_correct (inject_Z (Z.of_nat (S n)))), E. reflexivity. }
  unfold Qeq in Q. cbn in Q. lia.
Qed.

Lemma select_map (f : Qc -> Qc) (mask : list bool) : forall v : list Qc,
  map snd (filter (fun p : bool * Qc => p.1 = true) (zip mask (map f v)))
  = map f (map snd (filter (fun p : bool * Qc => p.1 = true) (zip mask v))).
Proof.
  induction mask as [|b mask IH]; intros [|x v]; try reflexivity.
  cbn [map zip zip_with]. rewrite !filter_cons. cbn [fst].
  destruct (decide (b = true)); cbn [map snd]; now rewrite IH.
Qed.

Lemma select_open (aperture : list Qc) : forall v : list Qc,
  length aperture = length v ->
  Exists (fun a => 0 < a) aperture ->
  map snd (filter (fun p : bool * Qc => p.1 = true)
                  (zip (map (fltb (of_Z 0)) aperture) v)) <> [].
Proof.
  induction aperture as [|a aperture IH]; intros [|x v] L Hex; cbn in L;
    try discriminate.
  - inversion Hex.
  - cbn [map zip zip_with]. rewrite filter_cons. cbn [fst].
    destruct (decide _) as [|Hn]; [discriminate|].
    apply IH; [lia|]. inversion Hex as [? ? Ha|]; [|assumption].
    exfalso. apply Hn. now apply exact_lt.
Qed.

Lemma np_sum_shift (c : Qc) (v : list Qc) :
  np_sum (map (fun x => x + c) v) = np_sum v + of_Z (Z.of_nat (length v)) * c.
Proof.
  induction v as [|x v IH]; cbn [map length].
  - rewrite np_sum_nil. change (of_Z (Z.of_nat 0)) with (0 : Qc). ring.
  - rewrite !np_sum_cons, IH, Nat2Z.inj_succ, <- Z.add_1_r, of_Z_succ. ring.
Qed.

Lemma np_mean_shift (c : Qc) (v : list Qc) :
  v <> [] -> np_mean (map (fun x => x + c) v) = np_mean v + c.
Proof.
  destruct v as [|x v]; [done|]. intros _.
  unfold np_mean. rewrite np_sum_shift, length_map.
  pose proof (@of_nat_nonzero (length v)) as Hn. cbn [length].
  change (@fdiv Qc _) with Qcdiv. field. exact Hn.
Qed.

(** X10.  The piston is removed: when the aperture has an open pixel,
    adding the same length to every point of the mirror surface does not
    change [input_opd] or [residual_opd]. *)
Theorem piston_is_removed (aperture opd : list Qc) (c : Qc) :
  Exists (fun a => 0 < a) aperture ->
  opd_in_aperture aperture (map (fun x => x + c) opd) = opd_in_aperture aperture opd.
Proof.
  intros Hopen. unfold opd_in_aperture, piston, np_select.
  rewrite !length_map.
  destruct (decide (length aperture = length opd)) as [L|]; [|reflexivity].
  rewrite select_map, np_mean_shift by (now apply select_open).
  rewrite map_map.
  match goal with
  | |- context [np_mean ?l] => generalize (np_mean l); intros m
  end.
  erewrite map_ext; [reflexivity|]. intros x. cbn. ring.
Qed.

Lemma positive_nonzero (c : Qc) : 0 < c -> c <> 0.
Proof. intros Hc ->. exact (Qlt_irrefl _ Hc). Qed.

Lemma max2_exact (a b : Qc) : max2 a b = if fltb a b then b else a.
Proof. unfold max2. now rewrite !exact_eq_refl. Qed.

Lemma max2_divide (a b c : Qc) : 0 < c -> max2 (a / c) (b / c) = max2 a b / c.
Proof.
  intros Hc. rewrite !max2_exact.
  assert (Hi : 0 < / c).
  { unfold Qclt. change (this (/ c)) with (Qred (/ this c)).
    rewrite (Qred_correct (/ this c)). apply Qinv_lt_0_compat. exact Hc. }
  destruct (fltb a b) eqn:E.
  - apply exact_lt in E.
    assert (E' : fltb (a / c) (b / c) = true).
    { apply exact_lt. unfold Qcdiv. apply Qcmult_lt_compat_r; assumption. }
    now rewrite E'.
  - destruct (fltb (a / c) (b / c)) eqn:E'; [|reflexivity].
    apply exact_lt in E'. exfalso.
    assert (L : a < b).
    { replace a with (a / c * c) by (field; now apply positive_nonzero).
      replace b with (b / c * c) by (field; now apply positive_nonzero).
      apply Qcmult_lt_compat_r; assumption. }
    apply exact_lt in L. congruence.
Qed.

Lemma fold_max2_divide (l : list Qc) : forall (x c : Qc),
  0 < c ->
  fold_left max2 (divide_by l c) (x / c) = fold_left max2 l x / c.
Proof.
  induction l as [|y l IH]; intros x c Hc; [reflexivity|].
  unfold divide_by. cbn [map fold_left]. change (fdiv y c) with (y / c).
  rewrite max2_divide by assumption. exact (IH _ _ Hc).
Qed.

Lemma np_max_divide (p : list Qc) (m c : Qc) :
  0 < c -> np_max p = inr m -> np_max (divide_by p c) = inr (m / c).
Proof.
  intros Hc. destruct p as [|x p]; [discriminate|].
  unfold divide_by. cbn [np_max map].
  intros [= <-]. f_equal. change (fdiv x c) with (x / c).
  exact (fold_max2_divide p x Hc).
Qed.

Section Strehl.
Variables W Cam Rng IMat : Type.
Variable lib : Library Qc W Cam Rng IMat.
Variable focal_power : W -> exn + list Qc.

(** X11.  The Strehl estimate is a ratio of peaks: the brightest pixel
    of the focal image behind the mirror, divided by the brightest pixel
    [Inorm] of the focal image of the same star without the mirror, when
    that one is positive.  A mirror that leaves the wavefront as it is
    gives exactly [1]. *)
Theorem strehl_is_peak_ratio (acts : list Qc) (w w' : W) (p p' : list Qc) (m m' : Qc) :
  focal_power w = inr p -> np_max p = inr m -> 0 < m ->
  dm_forward lib acts w = inr w' ->
  focal_power w' = inr p' -> np_max p' = inr m' ->
  strehl lib focal_power acts w = inr (m' / m) /\
  (w' = w -> strehl lib focal_power acts w = inr 1).
Proof.
  intros Ep Em Hm Ed Ep' Em'.
  assert (E : strehl lib focal_power acts w = inr (m' / m)).
  { unfold strehl, Inorm, PSF. rewrite Ep, Em, Ed, Ep'.
    now apply np_max_divide. }
  split; [exact E|]. intros ->. rewrite E.
  rewrite Ep in Ep'. injection Ep' as <-. rewrite Em in Em'. injection Em' as <-.
  f_equal. field. now apply positive_nonzero.
Qed.
End Strehl.
End ExactDiagnostics.

(** ** The diagnostics in binary64 *)

Section Binary64Diagnostics.

Lemma select_closed (aperture : list float) : forall opd : list float,
  Forall (fun a => fltb (of_Z 0) a = false) aperture ->
  map snd (filter (fun p : bool * float => p.1 = true)
                  (zip (map (fltb (of_Z 0)) aperture) opd)) = [].
Proof.
  induction aperture as [|a aperture IH]; intros [|x opd] Hc; try reflexivity.
  inversion Hc as [|? ? Ha Hc']; subst.
  cbn [map zip zip_with]. rewrite filter_cons. cbn [fst]. rewrite Ha.
  destruct (decide (false = true)); [discriminate|]. now apply IH.
Qed.

(** X12.  An aperture without an open pixel raises nothing: the mean over
    the empty selection is [0 / 0], and the piston that is subtracted
    from the mirror surface is NaN.  A surface of another size than the
    aperture raises [IndexError]. *)
Theorem piston_of_closed_aperture (aperture opd : list float) :
  Forall (fun a => fltb (of_Z 0) a = false) aperture ->
  piston aperture opd
  = if decide (length aperture = length opd) then inr PrimFloat.nan
    else inl IndexError.
Proof.
  intros Hc. unfold piston, np_select. rewrite length_map.
  destruct (decide _) as [L|]; [|reflexivity].
  rewrite select_closed by assumption. reflexivity.
Qed.
End Binary64Diagnostics.

(** ** The properties above on the bench *)

Section MoreWitnesses.

Abbreviation engine := (Bench.bench (F:=float)).
Abbreviation State := (Notebook float (Bench.W (F:=float)) (Bench.Cam (F:=float))
                                 (Bench.Rng (F:=float))).
Abbreviation exact_engine := (Bench.bench (F:=Qc)).
Abbreviation ExactState := (Notebook Qc (Bench.W (F:=Qc)) (Bench.Cam (F:=Qc))
                                      (Bench.Rng (F:=Qc))).

Lemma exact_differ (x y : Qc) : Qeq_bool (this x) (this y) = false -> x <> y.
Proof.
  intros E ->. assert (T : Qeq_bool (this y) (this y) = true)
    by (apply Qeq_bool_iff; reflexivity).
  congruence.
Defined.

Lemma exact_list_eq (u v : list Qc) : map this u = map this v -> u = v.
Proof.
  revert v. induction u as [|x u IH]; intros [|y v] E; try discriminate E.
  - reflexivity.
  - injection E as Ex Eu. f_equal; [|exact (IH _ Eu)].
    apply Qc_is_canon. rewrite Ex. reflexivity.
Defined.

Lemma normalize_scale_invariant_witness :
  let v : list Qc := [Q2Qc 1; Q2Qc 3] in
  (Q2Qc 5 <> Q2Qc 0 /\ np_sum v <> Q2Qc 0) /\
  normalize (scale (Q2Qc 5) v) = normalize v.
Proof.
  intros v.
  assert (Hc : Q2Qc 5 <> Q2Qc 0) by (apply exact_differ; reflexivity).
  assert (Hs : np_sum v <> Q2Qc 0) by (apply exact_differ; reflexivity).
  split; [exact (conj Hc Hs)|exact (normalize_scale_invariant Hc Hs)].
Defined.

Lemma normalized_sums_to_one_witness :
  let v : list Qc := [Q2Qc 1; Q2Qc 3] in
  np_sum v <> Q2Qc 0 /\ np_sum (normalize v) = Q2Qc 1.
Proof.
  intros v.
  assert (Hs : np_sum v <> Q2Qc 0) by (apply exact_differ; reflexivity).
  split; [exact Hs|exact (proj2 (normalized_sums_to_one v) Hs)].
Defined.

Lemma diff_image_sums_to_zero_witness :
  let s : ExactState := Bench.ready [[Q2Qc 1; Q2Qc 2]; [Q2Qc 2; Q2Qc 3]] in
  let s' : ExactState := final (closed_loop_iteration exact_engine s) in
  let raw : list Qc := [Q2Qc (1 # 4); Q2Qc (3 # 4)] in
  (closed_loop_iteration exact_engine s = Returns tt s' /\
   image_ref (calibration s) = normalize raw /\
   np_sum raw <> Q2Qc 0 /\
   length (wfs_image (loop s')) = length raw /\
   np_sum (wfs_image (loop s')) <> Q2Qc 0) /\
  np_sum (diff_image (loop s')) = Q2Qc 0.
Proof.
  intros s s' raw.
  assert (Hrun : closed_loop_iteration exact_engine s = Returns tt s')
    by (apply (@returns_final Qc); vm_compute; reflexivity).
  assert (Hr : image_ref (calibration s) = normalize raw) by (vm_compute; reflexivity).
  assert (Hs : np_sum raw <> Q2Qc 0) by (apply exact_differ; vm_compute; reflexivity).
  assert (Hl : length (wfs_image (loop s')) = length raw) by (vm_compute; reflexivity).
  assert (Hi : np_sum (wfs_image (loop s')) <> Q2Qc 0)
    by (apply exact_differ; vm_compute; reflexivity).
  split; [exact (conj Hrun (conj Hr (conj Hs (conj Hl Hi))))|].
  exact (diff_image_sums_to_zero Hrun Hr Hs Hl Hi).
Defined.

Lemma commands_leak_without_signal_witness :
  let s : ExactState :=
    put_dm_actuators [Q2Qc (1 # 1000); Q2Qc (1 # 1000)] (Bench.ready []) in
  let s' : ExactState := final (closed_loop_iteration exact_engine s) in
  (closed_loop_iteration exact_engine s = Returns tt s' /\
   wfs_image (loop s') = image_ref (calibration s) /\
   length (dm_actuators (devices s)) = length (reconstruction_matrix (calibration s))) /\
  dm_actuators (devices s') = [Q2Qc (99 # 100000); Q2Qc (99 # 100000)].
Proof.
  intros s s'.
  assert (Hrun : closed_loop_iteration exact_engine s = Returns tt s')
    by (apply (@returns_final Qc); vm_compute; reflexivity).
  assert (Hi : wfs_image (loop s') = image_ref (calibration s))
    by (apply exact_list_eq; vm_compute; reflexivity).
  assert (Hl : length (dm_actuators (devices s))
               = length (reconstruction_matrix (calibration s)))
    by (vm_compute; reflexivity).
  split; [exact (conj Hrun (conj Hi Hl))|].
  rewrite (commands_leak_without_signal Hrun Hi Hl).
  apply exact_list_eq. vm_compute. reflexivity.
Defined.



Lemma calibration_leaves_last_probe_witness :
  let s : State := Bench.fresh [] in
  let s' : State := final (calibrate engine s) in
  calibrate engine s = Returns tt s' /\
  dm_actuators (devices s') = probe_command engine 1 (-1) /\
  dm_actuators (devices s') !! 1 = Some (fmul (of_Z (-1)) probe_amp).
Proof.
  intros s s'.
  assert (Hrun : calibrate engine s = Returns tt s')
    by (apply (@returns_final float); vm_compute; reflexivity).
  split; [exact Hrun|].
  pose proof (calibration_leaves_last_probe Hrun) as [_ [Ha [Hl _]]].
  split; [exact Ha|exact Hl].
Defined.

Lemma every_exposure_is_read_witness :
  let s : State := Bench.fresh [] in
  let s' : State := final (notebook engine s) in
  notebook engine s = Returns tt s' /\
  exists t,
    trace s' = trace s ++ t /\
    camera_protocol false (kinds t) = Some false /\
    count_occ Kind_eq_dec (kinds t) K_camera_integrate = 25.
Proof.
  intros s s'.
  assert (Hrun : notebook engine s = Returns tt s')
    by (apply (@returns_final float); vm_compute; reflexivity).
  split; [exact Hrun|].
  destruct (every_exposure_is_read engine s) as (t & Et & _ & Hr).
  exists t. split; [exact Et|exact (Hr s' Hrun)].
Defined.

Lemma piston_is_removed_witness :
  let aperture : list Qc := [Q2Qc 0; Q2Qc (1 # 2); Q2Qc 1] in
  let opd : list Qc := [Q2Qc 1; Q2Qc 2; Q2Qc 4] in
  Exists (fun a => Qclt (Q2Qc 0) a) aperture /\
  opd_in_aperture aperture (map (fun x => Qcplus x (Q2Qc 5)) opd)
  = opd_in_aperture aperture opd.
Proof.
  intros aperture opd.
  assert (Hopen : Exists (fun a => Qclt (Q2Qc 0) a) aperture)
    by (apply Exists_cons_tl, Exists_cons_hd; reflexivity).
  split; [exact Hopen|exact (piston_is_removed opd (Q2Qc 5) Hopen)].
Defined.

Lemma strehl_is_peak_ratio_witness :
  let focal_power : Bench.W (F:=Qc) -> exn + list Qc := fun w => inr w in
  let w : Bench.W (F:=Qc) := [Q2Qc 1; Q2Qc 3] in
  let acts : list Qc := [Q2Qc 0; Q2Qc 0] in
  (focal_power w = inr w /\ np_max w = inr (Q2Qc 3) /\ Qclt (Q2Qc 0) (Q2Qc 3) /\
   dm_forward exact_engine acts w = inr w) /\
  strehl exact_engine focal_power acts w = inr (Q2Qc 1).
Proof.
  intros focal_power w acts.
  assert (Ep : focal_power w = inr w) by reflexivity.
  assert (Em : np_max w = inr (Q2Qc 3)) by (vm_compute; reflexivity).
  assert (Hm : Qclt (Q2Qc 0) (Q2Qc 3)) by reflexivity.
  assert (Ed : dm_forward exact_engine acts w = inr w) by (vm_compute; reflexivity).
  split; [exact (conj Ep (conj Em (conj Hm Ed)))|].
  exact (proj2 (@strehl_is_peak_ratio _ _ _ _ exact_engine focal_power
                  acts w w w w (Q2Qc 3) (Q2Qc 3) Ep Em Hm Ed Ep Em) eq_refl).
Defined.

Lemma piston_of_closed_aperture_witness :
  let aperture : list float := [0; 0]%float in
  Forall (fun a => fltb (of_Z 0) a = false) aperture /\
  piston aperture [1; 2]%float = inr PrimFloat.nan /\
  piston aperture [1; 2; 3]%float = inl IndexError.
Proof.
  intros aperture.
  assert (Hc : Forall (fun a => fltb (of_Z 0) a = false) aperture)
    by (repeat constructor).
  split; [exact Hc|].
  split; [exact (piston_of_closed_aperture [1; 2]%float Hc)
         |exact (piston_of_closed_aperture [1; 2; 3]%float Hc)].
Defined.
End MoreWitnesses.
